(** * Group algebras and the Poincare-Birkhoff-Witt basis

    A shallow embedding of
    [sage/algebras/lie_algebras/poincare_birkhoff_witt.py] and
    [sage/algebras/group_algebra.py].

    Monomials of the PBW basis are elements of a free abelian monoid on the
    generator indices (a Python dict from index to positive exponent): they
    are modelled as [gmultiset G].  Elements of the algebra are Python dicts
    from monomials to nonzero coefficients: they are modelled as
    [gmap (gmultiset G) R].  A computation that raises, or that does not
    return within the given recursion budget, yields [None]. *)

From Stdlib Require Import ZArith Ring_theory ZArithRing.
From stdpp Require Import gmap gmultiset sorting list fin_maps.

Local Open Scope Z_scope.

(** ** The base ring *)

Class BaseRing (R : Type) := {
  r0 : R;
  r1 : R;
  radd : R → R → R;
  rmul : R → R → R;
  rsub : R → R → R;
  ropp : R → R;
  req_dec :: EqDecision R
}.

Class BaseRingLaws (R : Type) `{BaseRing R} := {
  ring_laws : ring_theory r0 r1 radd rmul rsub ropp (@eq R)
}.

#[global] Instance Z_BaseRing : BaseRing Z := {
  r0 := 0; r1 := 1; radd := Z.add; rmul := Z.mul; rsub := Z.sub; ropp := Z.opp
}.

#[global] Instance Z_BaseRingLaws : BaseRingLaws Z := {
  ring_laws := Zth
}.

(** ** The free abelian monoid of monomials *)

Section Monoid.
Context `{Countable G}.
Variable basis_key : G → Z.

(** Modelled from the spec: the identity of [IndexedFreeAbelianMonoid],
    the empty monomial. *)
Definition monoid_one : gmultiset G := ∅.

(** Modelled from the spec: [I.gen(x)], the monomial [x^1]. *)
Definition gen (x : G) : gmultiset G := {[+ x +]}.

(** Modelled from the spec: the product of two monoid elements adds the
    exponents index by index. *)
Definition monoid_mul (a b : gmultiset G) : gmultiset G := a ⊎ b.

(** Modelled from the spec: [a // b] subtracts the exponents of [b] from
    those of [a]; the monoid raises an error when [b] does not divide
    [a]. *)
Definition floordiv (a b : gmultiset G) : option (gmultiset G) :=
  if decide (b ⊆ a) then Some (a ∖ b) else None.

(** Modelled from the spec: [m.length()], the sum of the exponents. *)
Definition length_mon (m : gmultiset G) : nat := size m.

(** [_monoid_key]: the key of an item [(index, exponent)] is the basis
    key of its index. *)
Definition _monoid_key (x : G * positive) : Z := basis_key x.1.

Definition key_le (x y : G * positive) : Prop :=
  _monoid_key x ≤ _monoid_key y.

#[global] Instance key_le_dec : RelDecision key_le.
Proof. intros x y. unfold key_le. apply _. Defined.

(** Modelled from the spec: [_sorted_items], the items of the monomial
    sorted by the sorting key. *)
Definition _sorted_items (m : gmultiset G) : list (G * positive) :=
  merge_sort key_le (map_to_list (gmultiset_car m)).

(** Modelled from the spec: the first index of the sorted items, [None]
    for the identity. *)
Definition leading_support (m : gmultiset G) : option G :=
  fst <$> head (_sorted_items m).

(** Modelled from the spec: the last index of the sorted items, [None]
    for the identity. *)
Definition trailing_support (m : gmultiset G) : option G :=
  fst <$> last (_sorted_items m).

(** [_monomial_key]: the pair of the negated length and the keys of the
    word of the monomial. *)
Definition to_word_list (m : gmultiset G) : list G :=
  '(x, e) ← _sorted_items m; replicate (Pos.to_nat e) x.

Definition _monomial_key (m : gmultiset G) : Z * list Z :=
  (- Z.of_nat (length_mon m), basis_key <$> to_word_list m).
End Monoid.

Global Arguments gen : simpl never.
Global Arguments monoid_mul : simpl never.

(** ** Linear combinations of monomials *)

Section FreeModule.
Context `{Countable K} `{BaseRing R}.

Definition nonzero (c : R) : option R :=
  if decide (c = r0) then None else Some c.

(** The invariant of the elements of a free module: zero coefficients
    are never stored. *)
Definition zero_free (a : gmap K R) : Prop :=
  ∀ k c, a !! k = Some c → c ≠ r0.

(** Modelled from the spec: [monomial(m)] is the element [{m: 1}]. *)
Definition monomial (m : K) : gmap K R := {[ m := r1 ]}.

(** Modelled from the spec: [term(m, c)] is [{m: c}], and the zero
    element when [c] is zero. *)
Definition term (m : K) (c : R) : gmap K R :=
  match nonzero c with Some c => {[ m := c ]} | None => ∅ end.

(** Modelled from the spec: addition of two elements; coefficients that
    cancel are not stored. *)
Definition lc_add (a b : gmap K R) : gmap K R :=
  union_with (λ x y, nonzero (radd x y)) a b.

(** Modelled from the spec: scalar multiplication; zero coefficients are
    not stored. *)
Definition lc_scale (c : R) (a : gmap K R) : gmap K R :=
  omap (λ x, nonzero (rmul c x)) a.

(** Modelled from the spec: subtraction of two elements. *)
Definition lc_sub (a b : gmap K R) : gmap K R :=
  merge (λ ox oy,
    match ox, oy with
    | Some x, Some y => nonzero (rsub x y)
    | Some x, None => Some x
    | None, Some y => Some (ropp y)
    | None, None => None
    end) a b.

(** Modelled from the spec: [sum_of_terms], the sum of the terms
    [(m, c)] of a list. *)
Definition sum_of_terms (l : list (K * R)) : gmap K R :=
  fold_left (λ acc mc, lc_add acc (term mc.1 mc.2)) l ∅.

(** Modelled from the spec: [linear_combination], the sum of the
    elements [p] of a list of pairs [(p, c)], each scaled by [c]. *)
Definition linear_combination (l : list (gmap K R * R)) : gmap K R :=
  fold_left (λ acc pc, lc_add acc (lc_scale pc.2 pc.1)) l ∅.

(** Modelled from the spec: the pairs of terms of two elements, with the
    product of their coefficients, in the order in which the product of
    two elements visits them. *)
Definition term_pairs (a b : gmap K R) : list (K * K * R) :=
  '(ml, cl) ← map_to_list a; '(mr, cr) ← map_to_list b;
  [(ml, mr, rmul cl cr)].

(** Modelled from the spec: the product of two elements, as the bilinear
    extension of a product [f] on the basis. *)
Definition mul_with (f : K → K → option (gmap K R)) (a b : gmap K R)
    : option (gmap K R) :=
  rs ← mapM (λ t : K * K * R, p ← f t.1.1 t.1.2; Some (p, t.2))
            (term_pairs a b);
  Some (linear_combination rs).
End FreeModule.

(** ** The Poincare-Birkhoff-Witt basis *)

Section PBW.
Context `{Countable G} `{BaseRing R}.

(** The ordering oracle [self._basis_key] and the bracket oracle of the
    Lie algebra [self._g].  The keys are integers, such as the position
    of a generator in the basis.  The bracket of two basis elements is a
    dict from generator indices to coefficients; [None] when the Lie
    algebra cannot compute it. *)
Variable basis_key : G → Z.
Variable bracket : G → G → option (gmap G R).

(** [one_basis]: the monomial indexing [1]. *)
Definition one_basis : gmultiset G := monoid_one.

(** [sum_of_terms((I.gen(t), c) for t, c in mc.items())]: the element of
    the Lie algebra with coefficients [mc], as a linear combination of
    single generators. *)
Definition lift_terms (mc : gmap G R) : gmap (gmultiset G) R :=
  sum_of_terms (prod_map gen id <$> map_to_list mc).

(** [product_on_basis].  The method calls itself through the product [*]
    of the elements of its last line; the budget [n] bounds the depth of
    these calls, and [None] is returned when it is used up. *)
Fixpoint product_on_basis (n : nat) (lhs rhs : gmultiset G)
    : option (gmap (gmultiset G) R) :=
  match n with
  | O => None
  | S n =>
    if decide (lhs = one_basis) then Some (monomial rhs)
    else if decide (rhs = one_basis) then Some (monomial lhs)
    else
      trail ← trailing_support basis_key lhs;
      lead ← leading_support basis_key rhs;
      if decide (basis_key trail ≤ basis_key lead)
      then Some (monomial (monoid_mul lhs rhs))
      else
        mc ← bracket trail lead;
        let terms := lift_terms mc in
        let terms := lc_add terms (monomial (monoid_mul (gen lead) (gen trail))) in
        lhs' ← floordiv lhs (gen trail);
        x ← mul_with (product_on_basis n) (monomial lhs') terms;
        rhs' ← floordiv rhs (gen lead);
        mul_with (product_on_basis n) x (monomial rhs')
  end.

(** [degree_on_basis]. *)
Definition degree_on_basis (m : gmultiset G) : nat := length_mon m.

(** The commutator term of [product_on_basis]: the bracket of [trail]
    and [lead] plus the ordered monomial [lead * trail]. *)
Definition correction (trail lead : G) : option (gmap (gmultiset G) R) :=
  mc ← bracket trail lead;
  Some (lc_add (lift_terms mc) (monomial (monoid_mul (gen lead) (gen trail)))).

(** The four branches of [product_on_basis]. *)
Inductive shape (lhs rhs : gmultiset G) : Prop :=
  | shape_one_l : lhs = ∅ → shape lhs rhs
  | shape_one_r : lhs ≠ ∅ → rhs = ∅ → shape lhs rhs
  | shape_sorted trail lead :
      lhs ≠ ∅ → rhs ≠ ∅ →
      trailing_support basis_key lhs = Some trail →
      leading_support basis_key rhs = Some lead →
      basis_key trail ≤ basis_key lead → shape lhs rhs
  | shape_inversion trail lead :
      lhs ≠ ∅ → rhs ≠ ∅ →
      trailing_support basis_key lhs = Some trail →
      leading_support basis_key rhs = Some lead →
      basis_key lead < basis_key trail → shape lhs rhs.

(** Every monomial of [r] has degree at most the total degree of
    [lhs] and [rhs], and [lhs rhs] is the only one of that degree. *)
Definition bounded (lhs rhs : gmultiset G) (r : gmap (gmultiset G) R)
    : Prop :=
  ∀ m, is_Some (r !! m) →
    (size m ≤ size lhs + size rhs)%nat
    ∧ (size m = (size lhs + size rhs)%nat → m = lhs ⊎ rhs).

(** *** The recursion measure *)

(** The number of pairs of a letter of [l1] and a letter of [l2] that
    are out of order. *)
Definition inv_list (l1 l2 : list G) : nat :=
  sum_list_with (λ x,
    sum_list_with (λ y,
      if decide (basis_key y < basis_key x) then 1%nat else 0%nat) l2) l1.

Definition inversions (a b : gmultiset G) : nat :=
  inv_list (elements a) (elements b).

(** The pairs [(total degree, inversions)], ordered lexicographically,
    packed into one number: the inversions of a pair are at most the
    square of its total degree. *)
Definition rank (a b : gmultiset G) : nat :=
  ((size a + size b) * (size a + size b) * (size a + size b)
   + inversions a b)%nat.

(** The lexicographic order on the pairs [(total degree, inversions)]. *)
Definition measure_lt (a' b' a b : gmultiset G) : Prop :=
  (size a' + size b' < size a + size b)%nat
  ∨ ((size a' + size b')%nat = (size a + size b)%nat
     ∧ (inversions a' b' < inversions a b)%nat).

(** [product_on_basis] with a recursion budget that is always enough. *)
Definition pbw_product (lhs rhs : gmultiset G)
    : option (gmap (gmultiset G) R) :=
  product_on_basis (S (rank lhs rhs)) lhs rhs.

(** The product [*] of two elements of the algebra. *)
Definition pbw_mul (a b : gmap (gmultiset G) R)
    : option (gmap (gmultiset G) R) :=
  mul_with pbw_product a b.

(** The pairs of monomials on which [product_on_basis lhs rhs] calls
    itself: the term pairs of the two products of its last line. *)
Definition recursive_calls (lhs rhs : gmultiset G)
    : option (list (gmultiset G * gmultiset G)) :=
  if decide (lhs = one_basis) then Some []
  else if decide (rhs = one_basis) then Some []
  else
    trail ← trailing_support basis_key lhs;
    lead ← leading_support basis_key rhs;
    if decide (basis_key trail ≤ basis_key lead)
    then Some []
    else
      terms ← correction trail lead;
      lhs' ← floordiv lhs (gen trail);
      x ← pbw_mul (monomial lhs') terms;
      rhs' ← floordiv rhs (gen lead);
      Some ((term_pairs (monomial lhs') terms).*1
            ++ (term_pairs x (monomial rhs')).*1).

(** The number of adjacent letters that are out of order in a word. *)
Fixpoint descents (w : list G) : nat :=
  match w with
  | x :: (y :: _) as w' =>
    ((if decide (basis_key y < basis_key x)%Z then 1 else 0) + descents w')%nat
  | _ => 0%nat
  end.

(** The number of out-of-order adjacent pairs of the word [lhs rhs]. *)
Definition out_of_order_pairs (lhs rhs : gmultiset G) : nat :=
  descents (to_word_list basis_key lhs ++ to_word_list basis_key rhs).

(** *** The lift from the Lie algebra and its partial inverse *)

(** [basis_function] of [_coerce_map_from_]. *)
Definition basis_function (x : G) : gmap (gmultiset G) R :=
  monomial (gen x).

(** [inv_supp] of [_coerce_map_from_]. *)
Definition inv_supp (m : gmultiset G) : option G :=
  if decide (length_mon m ≠ 1%nat) then None
  else leading_support basis_key m.

(** Modelled from the spec: the module morphism of [basis_function],
    which sends an element of the Lie algebra (a dict from generator
    indices to coefficients) to the linear combination of the images of
    its terms. *)
Definition lift (v : gmap G R) : gmap (gmultiset G) R :=
  linear_combination
    ((λ tc : G * R, (basis_function tc.1, tc.2)) <$> map_to_list v).

(** Modelled from the spec: the preimage under the lift, a partial
    inverse.  Each monomial of the element is sent back through
    [inv_supp]; a monomial without a preimage is reported as an error,
    [None] here. *)
Definition preimage (x : gmap (gmultiset G) R) : option (gmap G R) :=
  ts ← mapM (λ mc : gmultiset G * R, t ← inv_supp mc.1; Some (t, mc.2))
            (map_to_list x);
  Some (sum_of_terms ts).
End PBW.

(** ** The three-dimensional Lie algebra with generators E, F, H *)

Module Sl2.
Inductive gen3 := E | F | H.

#[global] Instance gen3_eq_dec : EqDecision gen3.
Proof. solve_decision. Defined.

#[global] Instance gen3_countable : Countable gen3.
Proof.
  refine (inj_countable'
    (λ x, match x with E => 0%nat | F => 1%nat | H => 2%nat end)
    (λ n, match n with 0%nat => E | 1%nat => F | _ => H end) _).
  by intros [].
Defined.

Definition key (x : gen3) : Z :=
  match x with E => 0 | F => 1 | H => 2 end.

Definition bracket (x y : gen3) : option (gmap gen3 Z) :=
  Some match x, y with
  | E, F => {[ H := 1 ]}
  | F, E => {[ H := -1 ]}
  | H, E => {[ E := 2 ]}
  | E, H => {[ E := -2 ]}
  | H, F => {[ F := -2 ]}
  | F, H => {[ F := 2 ]}
  | _, _ => ∅
  end.
End Sl2.


(** ** The group algebra constructor and its coercions *)

Section GroupAlgebra.
(** The objects of the framework ([Obj]: parents such as groups and
    rings, or any other value passed in) and the algebras it builds are
    external.  [in_Magmas G] stands for [G in Magmas()], and so on;
    [algebra G R] for the call [G.algebra(R)], which returns an algebra
    or raises an error of its own ([AlgebraError]). *)
Variable Obj Alg Hom AlgebraError : Type.
Variable in_Magmas in_AdditiveMagmas in_Rings : Obj → bool.
Variable algebra : Obj → Obj → AlgebraError + Alg.

(** The two errors of the constructor, and the errors of [G.algebra(R)],
    which it lets through. *)
Inductive error :=
  | ValueError_not_a_magma (G : Obj)
  | ValueError_not_a_ring (R : Obj)
  | Raised_by_algebra (e : AlgebraError).

Inductive result (A : Type) :=
  | Return (a : A)
  | Raise (e : error).
Arguments Return {A} a.
Arguments Raise {A} e.

Definition GroupAlgebra (G R : Obj) : result Alg :=
  if negb (in_Magmas G || in_AdditiveMagmas G)
  then Raise (ValueError_not_a_magma G)
  else if negb (in_Rings R)
  then Raise (ValueError_not_a_ring R)
  else
    match algebra G R with
    | inr A => Return A
    | inl e => Raise (Raised_by_algebra e)
    end.

(** [GroupAlgebra_class._coerce_map_from_].  [basis_keys A] stands for
    [A.basis().keys()], [base_ring A] for [A.base_ring()],
    [has_coerce_map_from G S] for [G.has_coerce_map_from(S)],
    [is_group_algebra A] for
    [A.category().is_subcategory(Groups().Algebras(K))],
    [as_algebra S] is the algebra [S] when [S in Sets.Algebras], and
    [coerce_map_from P S] for [P.coerce_map_from(S)]. *)
Variable basis_keys base_ring : Alg → Obj.
Variable has_coerce_map_from : Obj → Obj → bool.
Variable is_group_algebra : Alg → bool.
Variable as_algebra : Obj → option Alg.
Variable coerce_map_from : Obj → Obj → option Hom.

(** What the method returns: a boolean, a morphism built from the two
    coercions, or [None]. *)
Inductive coerce_result :=
  | CBool (b : bool)
  | CSetMorphism (hom_G hom_K : Hom)
  | CNone.

Definition _coerce_map_from_ (self : Alg) (S : Obj) : coerce_result :=
  let G := basis_keys self in
  let K := base_ring self in
  if has_coerce_map_from G S then CBool (is_group_algebra self)
  else
    match as_algebra S with
    | Some A =>
      let S_K := base_ring A in
      let S_G := basis_keys A in
      match coerce_map_from K S_K, coerce_map_from G S_G with
      | Some hom_K, Some hom_G => CSetMorphism hom_G hom_K
      | _, _ => CNone
      end
    | None => CNone
    end.

(** The coercion framework takes [True] or a morphism as a coercion and
    [False] or [None] as none. *)
Definition admits_coercion (r : coerce_result) : bool :=
  match r with
  | CBool b => b
  | CSetMorphism _ _ => true
  | CNone => false
  end.
End GroupAlgebra.

Arguments Return {Obj AlgebraError A} a.
Arguments Raise {Obj AlgebraError A} e.
Arguments ValueError_not_a_magma {Obj AlgebraError} G.
Arguments ValueError_not_a_ring {Obj AlgebraError} R.
Arguments Raised_by_algebra {Obj AlgebraError} e.
Arguments GroupAlgebra {Obj Alg AlgebraError}.
Arguments CBool {Hom} b.
Arguments CSetMorphism {Hom} hom_G hom_K.
Arguments CNone {Hom}.
Arguments _coerce_map_from_ {Obj Alg Hom}.
Arguments admits_coercion {Hom} r.

(** ** A small universe of parents for the group algebra constructor *)

Module Parents.
(** The dihedral group of order 6, the additive cyclic group of order 3
    (the ring of integers modulo 3), the integers, the rationals, and the
    integer [1], which is not a parent. *)
Inductive obj := D3 | AdditiveCyclic3 | ZZ | QQ | One.

#[global] Instance obj_eq_dec : EqDecision obj.
Proof. solve_decision. Defined.

Inductive alg := Algebra_of (G R : obj).

(** The additive cyclic group and the two rings are magmas for their
    multiplication and additive magmas for their addition. *)
Definition in_Magmas (x : obj) : bool :=
  match x with D3 | AdditiveCyclic3 | ZZ | QQ => true | One => false end.
Definition in_AdditiveMagmas (x : obj) : bool :=
  match x with AdditiveCyclic3 | ZZ | QQ => true | _ => false end.
Definition in_Rings (x : obj) : bool :=
  match x with ZZ | QQ => true | _ => false end.

(** [S.algebra(R)] without a category raises a [TypeError] when [S] is
    both an additive and a multiplicative semigroup ("constructing its
    algebra is ambiguous"); the integer [1] has no such method. *)
Inductive algebra_error :=
  | TypeError_ambiguous_algebra (S : obj)
  | AttributeError_algebra (x : obj).

Definition algebra (G R : obj) : algebra_error + alg :=
  match G with
  | D3 => inr (Algebra_of G R)
  | AdditiveCyclic3 | ZZ | QQ => inl (TypeError_ambiguous_algebra G)
  | One => inl (AttributeError_algebra G)
  end.

Definition basis_keys (A : alg) : obj := let 'Algebra_of G _ := A in G.
Definition base_ring (A : alg) : obj := let 'Algebra_of _ R := A in R.
Definition has_coerce_map_from (P S : obj) : bool := bool_decide (P = S).
Definition is_group_algebra (A : alg) : bool :=
  match basis_keys A with D3 => true | _ => false end.
Definition as_algebra (S : obj) : option alg := None.
Definition coerce_map_from (P S : obj) : option unit :=
  if has_coerce_map_from P S then Some () else None.

Definition GroupAlgebra :=
  GroupAlgebra in_Magmas in_AdditiveMagmas in_Rings algebra.
Definition _coerce_map_from_ :=
  _coerce_map_from_ basis_keys base_ring has_coerce_map_from
    is_group_algebra as_algebra coerce_map_from.
End Parents.

(** ** Coefficients, generators and induced maps *)

Section Coefficients.
Context `{Countable K} `{BaseRing R}.

(** The coefficient of a monomial in an element: zero when the monomial is
    not stored. *)
Definition coeff (a : gmap K R) (k : K) : R := default r0 (a !! k).

(** The sum of a list of coefficients. *)
Definition rsum (l : list R) : R := foldr radd r0 l.
End Coefficients.

Section Generators.
Context `{Countable G} `{BaseRing R}.
Variable basis_key : G → Z.
Variable bracket : G → G → option (gmap G R).

(** [algebra_generators]: the generator of index [x] is the monomial of
    [G[x]]. *)
Definition algebra_generators (x : G) : gmap (gmultiset G) R :=
  monomial (gen x).

(** The product [g_1 * g_2 * ... * g_n] of the generators of a list of
    indices, associated to the left as [*] is; the unit for the empty
    list. *)
Definition product_of_generators (w : list G)
    : option (gmap (gmultiset G) R) :=
  match w with
  | [] => Some (monomial one_basis)
  | x :: w =>
    foldl (λ acc y, a ← acc; pbw_mul basis_key bracket a (algebra_generators y))
          (Some (algebra_generators x)) w
  end.
End Generators.

(** The order of Python on lists of integers, and on the pairs of an
    integer and a list that [_monomial_key] returns. *)
Fixpoint list_lt (l1 l2 : list Z) : Prop :=
  match l1, l2 with
  | [], [] => False
  | [], _ :: _ => True
  | _ :: _, [] => False
  | x :: l1, y :: l2 => x < y ∨ (x = y ∧ list_lt l1 l2)
  end.

Definition monomial_key_lt (k1 k2 : Z * list Z) : Prop :=
  k1.1 < k2.1 ∨ (k1.1 = k2.1 ∧ list_lt k1.2 k2.2).

Section InducedMap.
Context `{Countable K1} `{Countable K2} {R1 : Type} `{BaseRing R2}.

(** The function of the morphism that [GroupAlgebra_class._coerce_map_from_]
    builds from the two coercions:
    [lambda x: self.sum_of_terms((hom_G(g), hom_K(c)) for g, c in x)]. *)
Definition induced_map (hom_G : K1 → K2) (hom_K : R1 → R2)
    (x : gmap K1 R1) : gmap K2 R2 :=
  sum_of_terms (prod_map hom_G hom_K <$> map_to_list x).
End InducedMap.

(** ** More concrete oracles *)

Module Oracles.
(** The bracket of the abelian Lie algebra on [E], [F], [H]. *)
Definition abelian_bracket (x y : Sl2.gen3) : option (gmap Sl2.gen3 Z) :=
  Some ∅.

(** The bracket of [Sl2], undefined on the pairs that are in order. *)
Definition partial_bracket (x y : Sl2.gen3) : option (gmap Sl2.gen3 Z) :=
  if decide (Sl2.key y < Sl2.key x) then Sl2.bracket x y else None.
End Oracles.

(** * Properties *)

(** ** Monomials: supports, division, inversions *)

Section MonoidFacts.
Context `{Countable G}.
Variable basis_key : G → Z.

Implicit Types a b c m : gmultiset G.

#[local] Instance key_le_total : Total (key_le basis_key).
Proof. intros x y. unfold key_le. lia. Qed.

#[local] Instance key_le_trans : Transitive (key_le basis_key).
Proof. intros x y z. unfold key_le. lia. Qed.

Lemma elem_of_sorted_items m x :
  x ∈ m ↔ ∃ e, (x, e) ∈ _sorted_items basis_key m.
Proof.
  unfold _sorted_items. setoid_rewrite merge_sort_Permutation.
  setoid_rewrite elem_of_map_to_list.
  rewrite elem_of_multiplicity. unfold multiplicity.
  destruct (gmultiset_car m !! x) as [n|]; split.
  - eauto.
  - lia.
  - lia.
  - by intros [e ?].
Qed.

Lemma sorted_items_nil m : _sorted_items basis_key m = [] → m = ∅.
Proof.
  intros Hnil. apply gmultiset_eq. intros x.
  rewrite multiplicity_empty. apply not_elem_of_multiplicity.
  rewrite elem_of_sorted_items, Hnil. intros [e He]. by apply elem_of_nil in He.
Qed.

Lemma sorted_items_sorted m :
  StronglySorted (key_le basis_key) (_sorted_items basis_key m).
Proof. apply (StronglySorted_merge_sort _). Qed.

Lemma trailing_support_is_Some m :
  m ≠ ∅ → is_Some (trailing_support basis_key m).
Proof.
  intros Hne. unfold trailing_support. apply fmap_is_Some, last_is_Some.
  intros Hnil. by apply Hne, sorted_items_nil.
Qed.

Lemma leading_support_is_Some m :
  m ≠ ∅ → is_Some (leading_support basis_key m).
Proof.
  intros Hne. unfold leading_support. apply fmap_is_Some, head_is_Some.
  intros Hnil. by apply Hne, sorted_items_nil.
Qed.

Lemma trailing_support_max m t :
  trailing_support basis_key m = Some t →
  t ∈ m ∧ ∀ x, x ∈ m → basis_key x ≤ basis_key t.
Proof.
  unfold trailing_support. intros Ht.
  apply fmap_Some in Ht as ([t' e] & Hlast & ->). simpl.
  apply last_Some in Hlast as [l Hl].
  pose proof (sorted_items_sorted m) as Hs. rewrite Hl in Hs.
  split.
  - apply elem_of_sorted_items. exists e. rewrite Hl. set_solver.
  - intros x Hx. apply elem_of_sorted_items in Hx as [e' He'].
    rewrite Hl in He'. apply elem_of_app in He' as [Hin|Hin].
    + apply (StronglySorted_app_1_elem_of _ _ _ (x, e') (t', e)) in Hs;
        [done|done|set_solver].
    + apply list_elem_of_singleton in Hin. by inversion Hin.
Qed.

Lemma leading_support_min m l :
  leading_support basis_key m = Some l →
  l ∈ m ∧ ∀ y, y ∈ m → basis_key l ≤ basis_key y.
Proof.
  unfold leading_support. intros Hl.
  apply fmap_Some in Hl as ([l' e] & Hhead & ->). simpl.
  apply head_Some in Hhead as [k Hk].
  pose proof (sorted_items_sorted m) as Hs. rewrite Hk in Hs.
  apply StronglySorted_inv in Hs as [_ Hall].
  split.
  - apply elem_of_sorted_items. exists e. rewrite Hk. set_solver.
  - intros y Hy. apply elem_of_sorted_items in Hy as [e' He'].
    rewrite Hk in He'. apply elem_of_cons in He' as [Heq|Hin].
    + by inversion Heq.
    + rewrite Forall_forall in Hall. apply (Hall _ Hin).
Qed.

Lemma trailing_support_gen x : trailing_support basis_key (gen x) = Some x.
Proof.
  destruct (trailing_support_is_Some (gen x)) as [t Ht].
  { apply gmultiset_non_empty_singleton. }
  rewrite Ht. apply trailing_support_max in Ht as [Hin _].
  apply gmultiset_elem_of_singleton in Hin. by subst.
Qed.

Lemma leading_support_gen x : leading_support basis_key (gen x) = Some x.
Proof.
  destruct (leading_support_is_Some (gen x)) as [t Ht].
  { apply gmultiset_non_empty_singleton. }
  rewrite Ht. apply leading_support_min in Ht as [Hin _].
  apply gmultiset_elem_of_singleton in Hin. by subst.
Qed.

Lemma size_gen (x : G) : size (gen x) = 1%nat.
Proof. apply gmultiset_size_singleton. Qed.

Lemma size_gen2 (x y : G) : size (gen x ⊎ gen y) = 2%nat.
Proof. by rewrite gmultiset_size_disj_union, !size_gen. Qed.

Lemma floordiv_gen m x :
  x ∈ m → floordiv m (gen x) = Some (m ∖ gen x).
Proof.
  intros Hin. unfold floordiv. rewrite decide_True; [done|].
  by apply gmultiset_singleton_subseteq_l.
Qed.

Lemma floordiv_Some m b q : floordiv m b = Some q → m = b ⊎ q.
Proof.
  unfold floordiv. case_decide; [|done]. intros [= <-].
  by apply gmultiset_disj_union_difference.
Qed.
End MonoidFacts.

Section Inversions.
Context `{Countable G}.
Variable basis_key : G → Z.

Implicit Types a b c m : gmultiset G.

Lemma sum_list_with_add {A} (f g : A → nat) (l : list A) :
  sum_list_with (λ x, (f x + g x)%nat) l
  = (sum_list_with f l + sum_list_with g l)%nat.
Proof. induction l as [|x l IH]; simpl; lia. Qed.

Lemma sum_list_with_ext_in {A} (f g : A → nat) (l : list A) :
  (∀ x, x ∈ l → f x = g x) → sum_list_with f l = sum_list_with g l.
Proof.
  induction l as [|x l IH]; simpl; intros Hfg; [done|].
  rewrite (Hfg x), IH; [done| |]; set_solver.
Qed.

Lemma sum_list_with_le {A} (f : A → nat) (l : list A) (n : nat) :
  (∀ x, x ∈ l → (f x ≤ n)%nat) → (sum_list_with f l ≤ length l * n)%nat.
Proof.
  induction l as [|x l IH]; simpl; intros Hf; [lia|].
  assert (f x ≤ n)%nat by (apply Hf; set_solver).
  assert (sum_list_with f l ≤ length l * n)%nat by (apply IH; set_solver).
  lia.
Qed.

Lemma inversions_disj_union_l a b c :
  inversions basis_key (a ⊎ b) c
  = (inversions basis_key a c + inversions basis_key b c)%nat.
Proof.
  unfold inversions, inv_list.
  by rewrite gmultiset_elements_disj_union, sum_list_with_app.
Qed.

Lemma inversions_disj_union_r a b c :
  inversions basis_key a (b ⊎ c)
  = (inversions basis_key a b + inversions basis_key a c)%nat.
Proof.
  unfold inversions, inv_list.
  rewrite <-sum_list_with_add. apply sum_list_with_ext_in. intros x _.
  by rewrite gmultiset_elements_disj_union, sum_list_with_app.
Qed.

Lemma inversions_sorted a b :
  (∀ x y, x ∈ a → y ∈ b → basis_key x ≤ basis_key y) →
  inversions basis_key a b = 0%nat.
Proof.
  intros Hle. unfold inversions, inv_list.
  rewrite (sum_list_with_ext_in _ (λ _, 0%nat)).
  { induction (elements a); simpl; lia. }
  intros x Hx. rewrite (sum_list_with_ext_in _ (λ _, 0%nat)).
  { induction (elements b); simpl; lia. }
  intros y Hy. apply gmultiset_elem_of_elements in Hx, Hy.
  specialize (Hle x y Hx Hy). case_decide; [lia|done].
Qed.

Lemma inversions_le a b :
  (inversions basis_key a b ≤ size a * size b)%nat.
Proof.
  unfold inversions, inv_list, size, gmultiset_size. simpl.
  apply sum_list_with_le. intros x _.
  etrans; [apply (sum_list_with_le _ _ 1%nat)|lia].
  intros y _. case_decide; lia.
Qed.

Lemma inversions_gen t l :
  basis_key l < basis_key t → inversions basis_key (gen t) (gen l) = 1%nat.
Proof.
  intros Hlt. unfold inversions, inv_list, gen.
  rewrite !gmultiset_elements_singleton. simpl.
  rewrite decide_True; [done|lia].
Qed.

(** The rank decreases when the total degree does not grow and the
    inversions decrease at equal total degree. *)
Lemma measure_lt_intro a b a' b' :
  (size a' + size b' ≤ size a + size b)%nat →
  (size a' + size b' = size a + size b →
    inversions basis_key a' b' < inversions basis_key a b)%nat →
  measure_lt basis_key a' b' a b.
Proof.
  intros Hle Hinv. unfold measure_lt.
  destruct (decide ((size a' + size b')%nat = (size a + size b)%nat));
    [right; auto|left; lia].
Qed.

Lemma rank_lt a b a' b' :
  measure_lt basis_key a' b' a b →
  (rank basis_key a' b' < rank basis_key a b)%nat.
Proof.
  unfold measure_lt, rank. intros Hlt.
  pose proof (inversions_le a' b') as Hb.
  set (d' := (size a' + size b')%nat) in *.
  set (d := (size a + size b)%nat) in *.
  assert (size a' * size b' ≤ d' * d')%nat by (subst d'; nia).
  destruct Hlt as [Hlt|[Heq Hinv]].
  - assert (d' + 1 ≤ d)%nat as Hd by lia.
    assert ((d' + 1) * (d' + 1) * (d' + 1) ≤ d * d * d)%nat.
    { assert ((d' + 1) * (d' + 1) ≤ d * d)%nat by nia. nia. }
    nia.
  - rewrite Heq. lia.
Qed.
End Inversions.

(** ** Linear combinations: supports *)

Section FreeModuleFacts.
Context `{Countable K} `{BaseRing R}.

Implicit Types a b x p : gmap K R.
Implicit Types k m : K.

Lemma nonzero_Some c d : nonzero c = Some d → d = c ∧ c ≠ r0.
Proof. unfold nonzero. case_decide; naive_solver. Qed.

Lemma monomial_support m k : is_Some (monomial (R:=R) m !! k) → k = m.
Proof.
  unfold monomial. intros [c Hc].
  by apply lookup_singleton_Some in Hc as [-> _].
Qed.

Lemma monomial_lookup m : monomial (R:=R) m !! m = Some r1.
Proof. apply lookup_singleton_eq. Qed.

Lemma term_support m c k : is_Some (term m c !! k) → k = m.
Proof.
  unfold term. destruct (nonzero c); intros [d Hd].
  - by apply lookup_singleton_Some in Hd as [-> _].
  - by rewrite lookup_empty in Hd.
Qed.

Lemma lc_add_support a b k :
  is_Some (lc_add a b !! k) → is_Some (a !! k) ∨ is_Some (b !! k).
Proof.
  unfold lc_add. rewrite lookup_union_with.
  destruct (a !! k), (b !! k); simpl; intros [? ?]; eauto; done.
Qed.

Lemma lc_scale_support c a k :
  is_Some (lc_scale c a !! k) → is_Some (a !! k).
Proof.
  unfold lc_scale. rewrite lookup_omap.
  destruct (a !! k); simpl; intros [? ?]; eauto; done.
Qed.

Lemma sum_of_terms_support (l : list (K * R)) k :
  is_Some (sum_of_terms l !! k) → ∃ c, (k, c) ∈ l.
Proof.
  unfold sum_of_terms.
  assert (∀ acc, is_Some (fold_left
    (λ acc (mc : K * R), lc_add acc (term mc.1 mc.2)) l acc !! k) →
    is_Some (acc !! k) ∨ ∃ c, (k, c) ∈ l) as Hgen.
  { induction l as [|[m c] l IH]; simpl; intros acc Hk; [by left|].
    apply IH in Hk as [Hk|[d Hd]].
    - apply lc_add_support in Hk as [Hk|Hk]; [by left|].
      apply term_support in Hk as ->. right. exists c. set_solver.
    - right. exists d. set_solver. }
  intros Hk. apply Hgen in Hk as [Hk|Hk]; [|done].
  rewrite lookup_empty in Hk. by destruct Hk.
Qed.

Lemma linear_combination_support (l : list (gmap K R * R)) k :
  is_Some (linear_combination l !! k) →
  ∃ p c, (p, c) ∈ l ∧ is_Some (p !! k).
Proof.
  unfold linear_combination.
  assert (∀ acc, is_Some (fold_left
    (λ acc (pc : gmap K R * R), lc_add acc (lc_scale pc.2 pc.1)) l acc !! k) →
    is_Some (acc !! k) ∨ ∃ p c, (p, c) ∈ l ∧ is_Some (p !! k)) as Hgen.
  { induction l as [|[p c] l IH]; simpl; intros acc Hk; [by left|].
    apply IH in Hk as [Hk|(q & d & Hd & Hq)].
    - apply lc_add_support in Hk as [Hk|Hk]; [by left|].
      apply lc_scale_support in Hk. right. exists p, c. set_solver.
    - right. exists q, d. set_solver. }
  intros Hk. apply Hgen in Hk as [Hk|Hk]; [|done].
  rewrite lookup_empty in Hk. by destruct Hk.
Qed.

Lemma elem_of_term_pairs a b ml mr c :
  (ml, mr, c) ∈ term_pairs a b ↔
  ∃ cl cr, a !! ml = Some cl ∧ b !! mr = Some cr ∧ c = rmul cl cr.
Proof.
  unfold term_pairs. rewrite list_elem_of_bind. split.
  - intros ([ml' cl] & Hin & Hl). apply list_elem_of_bind in Hin.
    destruct Hin as ([mr' cr] & Hin & Hr).
    apply list_elem_of_singleton in Hin. inversion Hin; subst.
    apply elem_of_map_to_list in Hl, Hr. eauto.
  - intros (cl & cr & Hl & Hr & ->). exists (ml, cl). split.
    + apply list_elem_of_bind. exists (mr, cr). split; [set_solver|].
      by apply elem_of_map_to_list.
    + by apply elem_of_map_to_list.
Qed.

Section with_product.
Variables f g : K → K → option (gmap K R).

Lemma mul_with_support a b x k :
  mul_with f a b = Some x → is_Some (x !! k) →
  ∃ ml mr p, is_Some (a !! ml) ∧ is_Some (b !! mr)
             ∧ f ml mr = Some p ∧ is_Some (p !! k).
Proof.
  unfold mul_with. intros Hmul Hk.
  apply bind_Some in Hmul as (rs & Hrs & [= <-]).
  apply linear_combination_support in Hk as (p & c & Hin & Hp).
  apply mapM_Some_1 in Hrs.
  apply list_elem_of_lookup_1 in Hin as [i Hi].
  destruct (Forall2_lookup_r _ _ _ _ _ Hrs Hi)
    as ([[ml mr] c'] & Hin & Hf).
  apply list_elem_of_lookup_2 in Hin. simpl in Hf.
  apply bind_Some in Hf as (p' & Hf & [= -> ->]).
  apply elem_of_term_pairs in Hin as (cl & cr & Hl & Hr & _).
  exists ml, mr, p. eauto.
Qed.

Lemma mul_with_ext a b :
  (∀ ml mr, is_Some (a !! ml) → is_Some (b !! mr) → f ml mr = g ml mr) →
  mul_with f a b = mul_with g a b.
Proof.
  intros Hfg. unfold mul_with. f_equal.
  apply Forall_mapM_ext, Forall_forall. intros [[ml mr] c] Hin. simpl.
  apply elem_of_term_pairs in Hin as (cl & cr & Hl & Hr & _).
  rewrite Hfg; eauto.
Qed.

Lemma mul_with_is_Some a b :
  (∀ ml mr, is_Some (a !! ml) → is_Some (b !! mr) → is_Some (f ml mr)) →
  is_Some (mul_with f a b).
Proof.
  intros Hf. unfold mul_with.
  destruct (mapM_is_Some_2
    (λ t : K * K * R, p ← f t.1.1 t.1.2; Some (p, t.2))
    (term_pairs a b)) as [rs Hrs]; [|by rewrite Hrs].
  apply Forall_forall. intros [[ml mr] c] Hin. simpl.
  apply elem_of_term_pairs in Hin as (cl & cr & Hl & Hr & _).
  destruct (Hf ml mr) as [p Hp]; eauto. by rewrite Hp.
Qed.
End with_product.
End FreeModuleFacts.

(** ** Linear combinations: arithmetic *)

Section FreeModuleRing.
Context `{Countable K} `{BaseRing R} `{!BaseRingLaws R}.

Implicit Types a b x p : gmap K R.
Implicit Types k m e : K.

Lemma rmul_1_l (c : R) : rmul r1 c = c.
Proof. apply (Rmul_1_l ring_laws). Qed.

Lemma rmul_1_r (c : R) : rmul c r1 = c.
Proof. rewrite (Rmul_comm ring_laws). apply rmul_1_l. Qed.

Lemma rsub_diag (c : R) : rsub c c = r0.
Proof. rewrite (Rsub_def ring_laws). apply (Ropp_def ring_laws). Qed.

Lemma zero_free_monomial m : (r1 : R) ≠ r0 → zero_free (monomial (R:=R) m).
Proof.
  intros Hne k c Hk. unfold monomial in Hk.
  by apply lookup_singleton_Some in Hk as [_ <-].
Qed.

Lemma zero_free_lc_add a b : zero_free a → zero_free b → zero_free (lc_add a b).
Proof.
  intros Ha Hb k c. unfold lc_add. rewrite lookup_union_with.
  destruct (a !! k) as [x|] eqn:Hx, (b !! k) as [y|] eqn:Hy; simpl.
  - intros Hc. by apply nonzero_Some in Hc as [-> ?].
  - intros [= <-]. by eapply Ha.
  - intros [= <-]. by eapply Hb.
  - done.
Qed.

Lemma zero_free_term m c : zero_free (term m c).
Proof.
  intros k d. unfold term. destruct (nonzero c) as [c'|] eqn:Hc.
  - apply nonzero_Some in Hc as [-> Hc]. intros Hk.
    by apply lookup_singleton_Some in Hk as [_ <-].
  - by rewrite lookup_empty.
Qed.

Lemma zero_free_sum_of_terms (l : list (K * R)) : zero_free (sum_of_terms l).
Proof.
  unfold sum_of_terms.
  assert (zero_free (∅ : gmap K R)) as Hacc
    by (intros k c; by rewrite lookup_empty).
  revert Hacc. generalize (∅ : gmap K R).
  induction l as [|[m c] l IH]; simpl; intros acc Hacc; [done|].
  apply IH, zero_free_lc_add; [done|apply zero_free_term].
Qed.

Lemma nonzero_ne (c : R) : c ≠ r0 → nonzero c = Some c.
Proof. intros Hc. unfold nonzero. by rewrite decide_False. Qed.

Lemma lc_add_term_fresh a k c :
  a !! k = None → c ≠ r0 → lc_add a (term k c) = <[k := c]> a.
Proof.
  intros Hk Hc. unfold lc_add, term. rewrite nonzero_ne by done.
  apply map_eq. intros k'. rewrite lookup_union_with.
  destruct (decide (k = k')) as [<-|Hne].
  - by rewrite Hk, lookup_singleton_eq, lookup_insert_eq.
  - rewrite lookup_singleton_ne, lookup_insert_ne by done.
    by destruct (a !! k').
Qed.

Lemma sum_of_terms_list_to_map (l : list (K * R)) :
  NoDup l.*1 → (∀ k c, (k, c) ∈ l → c ≠ r0) →
  sum_of_terms l = list_to_map l.
Proof.
  unfold sum_of_terms. intros Hnd Hnz.
  rewrite <-(right_id_L ∅ (∪) (list_to_map l)).
  assert (∀ k c, (k, c) ∈ l → (∅ : gmap K R) !! k = None) as Hfresh
    by (intros; apply lookup_empty).
  revert Hnd Hnz Hfresh. generalize (∅ : gmap K R).
  induction l as [|[k c] l IH]; simpl; intros acc Hnd Hnz Hfresh.
  { by rewrite (left_id_L ∅ (∪)). }
  apply NoDup_cons in Hnd as [Hk Hnd].
  rewrite lc_add_term_fresh; [|apply (Hfresh k c)|apply (Hnz k c)];
    [|set_solver..].
  rewrite IH; [|done|intros; apply (Hnz k0 c0); set_solver|].
  - rewrite <-insert_union_l, <-insert_union_r; [done|].
    by apply not_elem_of_list_to_map_1.
  - intros k' c' Hin. rewrite lookup_insert_ne.
    + apply (Hfresh k' c'). set_solver.
    + intros ->. apply Hk. apply list_elem_of_fmap. by exists (k', c').
Qed.

Lemma sum_of_terms_map_to_list a : zero_free a → sum_of_terms (map_to_list a) = a.
Proof.
  intros Ha. rewrite sum_of_terms_list_to_map.
  - apply list_to_map_to_list.
  - apply NoDup_fst_map_to_list.
  - intros k c Hin. apply elem_of_map_to_list in Hin. by eapply Ha.
Qed.

Lemma lc_scale_monomial c m : lc_scale c (monomial m) = term m c.
Proof.
  unfold lc_scale, monomial, term. rewrite omap_singleton, rmul_1_r.
  by destruct (nonzero c).
Qed.

Lemma linear_combination_monomials (l : list (K * R)) :
  linear_combination ((λ mc : K * R, (monomial mc.1, mc.2)) <$> l)
  = sum_of_terms l.
Proof.
  unfold linear_combination, sum_of_terms. generalize (∅ : gmap K R).
  induction l as [|[m c] l IH]; simpl; intros acc; [done|].
  by rewrite IH, lc_scale_monomial.
Qed.

Lemma term_pairs_monomial_l e b :
  term_pairs (monomial e) b
  = (λ mc : K * R, (e, mc.1, mc.2)) <$> map_to_list b.
Proof.
  unfold term_pairs, monomial. rewrite map_to_list_singleton. simpl.
  rewrite app_nil_r. induction (map_to_list b) as [|[m c] l IH]; simpl; [done|].
  rewrite rmul_1_l. f_equal. exact IH.
Qed.

Lemma term_pairs_monomial_r a e :
  term_pairs a (monomial e)
  = (λ mc : K * R, (mc.1, e, mc.2)) <$> map_to_list a.
Proof.
  unfold term_pairs, monomial. rewrite map_to_list_singleton.
  induction (map_to_list a) as [|[m c] l IH]; simpl; [done|].
  rewrite rmul_1_r. f_equal. exact IH.
Qed.

(** Multiplying by the monomial of a unit of the basis product. *)
Lemma mul_with_unit_l (f : K → K → option (gmap K R)) e b :
  (∀ m, f e m = Some (monomial m)) → zero_free b →
  mul_with f (monomial e) b = Some b.
Proof.
  intros Hf Hb. unfold mul_with. rewrite term_pairs_monomial_l.
  rewrite (mapM_Some_2 _ _
    ((λ mc : K * R, (monomial mc.1, mc.2)) <$> map_to_list b)).
  - simpl. by rewrite linear_combination_monomials, sum_of_terms_map_to_list.
  - apply Forall2_fmap, Forall_Forall2_diag, Forall_forall.
    intros [m c] _. simpl. by rewrite Hf.
Qed.

Lemma mul_with_unit_r (f : K → K → option (gmap K R)) a e :
  (∀ m, f m e = Some (monomial m)) → zero_free a →
  mul_with f a (monomial e) = Some a.
Proof.
  intros Hf Ha. unfold mul_with. rewrite term_pairs_monomial_r.
  rewrite (mapM_Some_2 _ _
    ((λ mc : K * R, (monomial mc.1, mc.2)) <$> map_to_list a)).
  - simpl. by rewrite linear_combination_monomials, sum_of_terms_map_to_list.
  - apply Forall2_fmap, Forall_Forall2_diag, Forall_forall.
    intros [m c] _. simpl. by rewrite Hf.
Qed.

Lemma lc_sub_add_monomial a m :
  a !! m = None → lc_sub (lc_add a (monomial m)) (monomial m) = a.
Proof.
  intros Hm. apply map_eq. intros k. unfold lc_sub, lc_add, monomial.
  rewrite lookup_merge, lookup_union_with.
  destruct (decide (m = k)) as [<-|Hne].
  - rewrite Hm, lookup_singleton_eq. simpl.
    unfold nonzero. by rewrite rsub_diag, decide_True.
  - rewrite lookup_singleton_ne by done. by destruct (a !! k).
Qed.
End FreeModuleRing.

(** ** The product on the basis *)

Section PBWFacts.
Context `{Countable G} `{BaseRing R}.
Variable basis_key : G → Z.
Variable bracket : G → G → option (gmap G R).

Implicit Types lhs rhs a b m : gmultiset G.
Implicit Types r x terms : gmap (gmultiset G) R.

Abbreviation pob := (product_on_basis basis_key bracket).
Abbreviation trailing := (trailing_support basis_key).
Abbreviation leading := (leading_support basis_key).
Abbreviation inv := (inversions basis_key).
Abbreviation rk := (rank basis_key).

Lemma shape_total lhs rhs : shape basis_key lhs rhs.
Proof.
  destruct (decide (lhs = ∅)) as [?|Hl]; [by apply shape_one_l|].
  destruct (decide (rhs = ∅)) as [?|Hr]; [by apply shape_one_r|].
  destruct (trailing_support_is_Some basis_key lhs Hl) as [trail Ht].
  destruct (leading_support_is_Some basis_key rhs Hr) as [lead Hd].
  destruct (decide (basis_key trail ≤ basis_key lead)).
  - by eapply shape_sorted.
  - eapply shape_inversion; [done..|lia].
Qed.

(** Case analysis on the branch that [product_on_basis] takes. *)
Ltac by_shape lhs rhs :=
  destruct (shape_total lhs rhs)
    as [->| Hl -> |t l Hl Hr' Ht Hd Hle |t l Hl Hr' Ht Hd Hlt].

Lemma pob_one_l n rhs : pob (S n) ∅ rhs = Some (monomial rhs).
Proof. simpl. by rewrite decide_True. Qed.

Lemma pob_one_r n lhs : pob (S n) lhs ∅ = Some (monomial lhs).
Proof.
  simpl. destruct (decide (lhs = one_basis)) as [->|]; [done|].
  by rewrite decide_True.
Qed.

Lemma pob_sorted n lhs rhs trail lead :
  lhs ≠ ∅ → rhs ≠ ∅ →
  trailing lhs = Some trail → leading rhs = Some lead →
  basis_key trail ≤ basis_key lead →
  pob (S n) lhs rhs = Some (monomial (lhs ⊎ rhs)).
Proof.
  intros Hl Hr Ht Hd Hle. simpl.
  rewrite decide_False by done. rewrite decide_False by done.
  rewrite Ht, Hd. simpl. by rewrite decide_True.
Qed.

Lemma pob_inversion n lhs rhs trail lead :
  lhs ≠ ∅ → rhs ≠ ∅ →
  trailing lhs = Some trail → leading rhs = Some lead →
  basis_key lead < basis_key trail →
  pob (S n) lhs rhs =
    terms ← correction bracket trail lead;
    x ← mul_with (pob n) (monomial (lhs ∖ gen trail)) terms;
    mul_with (pob n) x (monomial (rhs ∖ gen lead)).
Proof.
  intros Hl Hr Ht Hd Hlt. simpl.
  rewrite decide_False by done. rewrite decide_False by done.
  rewrite Ht, Hd. simpl. rewrite decide_False by lia.
  unfold correction.
  destruct (bracket trail lead) as [mc|]; simpl; [|done].
  rewrite (floordiv_gen lhs trail)
    by (by apply (trailing_support_max basis_key)).
  simpl. destruct (mul_with _ _ _) as [x|]; simpl; [|done].
  rewrite (floordiv_gen rhs lead)
    by (by apply (leading_support_min basis_key)).
  done.
Qed.

Lemma bounded_monomial lhs rhs : bounded lhs rhs (monomial (lhs ⊎ rhs)).
Proof.
  intros m Hm. apply monomial_support in Hm as ->.
  rewrite gmultiset_size_disj_union. done.
Qed.

Lemma correction_support trail lead terms m :
  correction bracket trail lead = Some terms → is_Some (terms !! m) →
  (∃ g, m = gen g) ∨ m = gen lead ⊎ gen trail.
Proof.
  unfold correction. intros Hc Hm.
  apply bind_Some in Hc as (mc & _ & [= <-]).
  apply lc_add_support in Hm as [Hm|Hm].
  - left. unfold lift_terms in Hm.
    apply sum_of_terms_support in Hm as [c Hc].
    apply list_elem_of_fmap in Hc as ([t c'] & [= -> ->] & _). by exists t.
  - right. by apply monomial_support in Hm.
Qed.

(** *** The terms of the two products of the inversion branch *)

Section inversion_branch.
Variables (lhs rhs : gmultiset G) (trail lead : G).
Hypothesis Htrail : trailing lhs = Some trail.
Hypothesis Hlead : leading rhs = Some lead.
Hypothesis Hlt : basis_key lead < basis_key trail.

Lemma lhs_split : lhs = gen trail ⊎ (lhs ∖ gen trail).
Proof.
  apply gmultiset_disj_union_difference'.
  by apply (trailing_support_max basis_key).
Qed.

Lemma rhs_split : rhs = gen lead ⊎ (rhs ∖ gen lead).
Proof.
  apply gmultiset_disj_union_difference'.
  by apply (leading_support_min basis_key).
Qed.

Lemma size_lhs : size lhs = S (size (lhs ∖ gen trail)).
Proof.
  rewrite lhs_split at 1.
  by rewrite gmultiset_size_disj_union, size_gen.
Qed.

Lemma size_rhs : size rhs = S (size (rhs ∖ gen lead)).
Proof.
  rewrite rhs_split at 1.
  by rewrite gmultiset_size_disj_union, size_gen.
Qed.

Lemma inv_rest_trail : inv (lhs ∖ gen trail) (gen trail) = 0%nat.
Proof.
  apply inversions_sorted. intros x y Hx Hy.
  apply gmultiset_elem_of_singleton in Hy as ->.
  apply (trailing_support_max basis_key lhs); [done|].
  rewrite lhs_split. multiset_solver.
Qed.

Lemma inv_lead_rest : inv (gen lead) (rhs ∖ gen lead) = 0%nat.
Proof.
  apply inversions_sorted. intros x y Hx Hy.
  apply gmultiset_elem_of_singleton in Hx as ->.
  apply (leading_support_min basis_key rhs); [done|].
  rewrite rhs_split. multiset_solver.
Qed.

Lemma inv_lhs_rhs :
  inv lhs rhs =
    (1 + inv (gen trail) (rhs ∖ gen lead)
     + inv (lhs ∖ gen trail) (gen lead)
     + inv (lhs ∖ gen trail) (rhs ∖ gen lead))%nat.
Proof.
  rewrite lhs_split at 1. rewrite rhs_split at 1.
  rewrite inversions_disj_union_l, !inversions_disj_union_r.
  rewrite (inversions_gen basis_key trail lead Hlt). lia.
Qed.

(** The calls of the first product have a smaller measure. *)
Lemma measure_first terms mr :
  correction bracket trail lead = Some terms → is_Some (terms !! mr) →
  measure_lt basis_key (lhs ∖ gen trail) mr lhs rhs.
Proof.
  intros Hc Hmr. pose proof size_lhs. pose proof size_rhs.
  destruct (correction_support _ _ _ _ Hc Hmr) as [[g ->]| ->].
  - apply measure_lt_intro; rewrite size_gen; lia.
  - pose proof (size_gen2 lead trail) as Hsz.
    apply measure_lt_intro; [lia|]. intros _.
    rewrite inversions_disj_union_r, inv_rest_trail, inv_lhs_rhs. lia.
Qed.

(** The calls of the second product have a smaller measure. *)
Lemma measure_second m' :
  (size m' ≤ size (lhs ∖ gen trail) + 2)%nat →
  (size m' = (size (lhs ∖ gen trail) + 2)%nat →
    m' = (lhs ∖ gen trail) ⊎ (gen lead ⊎ gen trail)) →
  measure_lt basis_key m' (rhs ∖ gen lead) lhs rhs.
Proof.
  intros Hle Htop. pose proof size_lhs. pose proof size_rhs.
  apply measure_lt_intro; [lia|]. intros Heq. rewrite Htop by lia.
  rewrite !inversions_disj_union_l, inv_lead_rest, inv_lhs_rhs. lia.
Qed.

Lemma rank_first terms mr :
  correction bracket trail lead = Some terms → is_Some (terms !! mr) →
  (rk (lhs ∖ gen trail) mr < rk lhs rhs)%nat.
Proof. intros Hc Hmr. by eapply rank_lt, measure_first. Qed.

Lemma rank_second m' :
  (size m' ≤ size (lhs ∖ gen trail) + 2)%nat →
  (size m' = (size (lhs ∖ gen trail) + 2)%nat →
    m' = (lhs ∖ gen trail) ⊎ (gen lead ⊎ gen trail)) →
  (rk m' (rhs ∖ gen lead) < rk lhs rhs)%nat.
Proof. intros Hle Htop. by apply rank_lt, measure_second. Qed.

(** The monomials of the first product. *)
Lemma first_product_bounded (f : gmultiset G → gmultiset G →
    option (gmap (gmultiset G) R)) terms x m' :
  (∀ b r, is_Some (terms !! b) →
    f (lhs ∖ gen trail) b = Some r → bounded (lhs ∖ gen trail) b r) →
  correction bracket trail lead = Some terms →
  mul_with f (monomial (lhs ∖ gen trail)) terms = Some x →
  is_Some (x !! m') →
  (size m' ≤ size (lhs ∖ gen trail) + 2)%nat
  ∧ (size m' = (size (lhs ∖ gen trail) + 2)%nat →
      m' = (lhs ∖ gen trail) ⊎ (gen lead ⊎ gen trail)).
Proof.
  intros Hf Hc Hx Hm'.
  destruct (mul_with_support _ _ _ _ _ Hx Hm')
    as (ml & mr & p & Hml & Hmr & Hp & Hpm).
  apply monomial_support in Hml as ->.
  destruct (Hf mr p Hmr Hp m' Hpm) as [Hle Htop].
  destruct (correction_support _ _ _ _ Hc Hmr) as [[g ->]| ->].
  - rewrite size_gen in *. split; [lia|]. intros Heq. lia.
  - rewrite size_gen2 in *. done.
Qed.

(** The monomials of the second product. *)
Lemma second_product_bounded (f : gmultiset G → gmultiset G →
    option (gmap (gmultiset G) R)) x r :
  (∀ m', is_Some (x !! m') →
    (size m' ≤ size (lhs ∖ gen trail) + 2)%nat
    ∧ (size m' = (size (lhs ∖ gen trail) + 2)%nat →
        m' = (lhs ∖ gen trail) ⊎ (gen lead ⊎ gen trail))) →
  (∀ a p, is_Some (x !! a) →
    f a (rhs ∖ gen lead) = Some p → bounded a (rhs ∖ gen lead) p) →
  mul_with f x (monomial (rhs ∖ gen lead)) = Some r →
  bounded lhs rhs r.
Proof.
  intros Hx Hf Hr m Hm. pose proof size_lhs. pose proof size_rhs.
  destruct (mul_with_support _ _ _ _ _ Hr Hm)
    as (ml & mr & p & Hml & Hmr & Hp & Hpm).
  apply monomial_support in Hmr as ->.
  destruct (Hx ml Hml) as [Hle Htop].
  destruct (Hf ml p Hml Hp m Hpm) as [Hle' Htop'].
  split; [lia|]. intros Heq.
  rewrite Htop' by lia. rewrite Htop by lia.
  rewrite lhs_split at 2. rewrite rhs_split at 2.
  apply gmultiset_eq. intros z. rewrite !multiplicity_disj_union. lia.
Qed.
End inversion_branch.

(** *** Degree bound, fuel independence, totality *)

Lemma pob_bounded n lhs rhs r :
  pob n lhs rhs = Some r → bounded lhs rhs r.
Proof.
  revert lhs rhs r. induction n as [|n IH]; intros lhs rhs r Hr; [done|].
  by_shape lhs rhs.
  - rewrite pob_one_l in Hr. injection Hr as <-.
    rewrite <-(left_id_L ∅ (⊎) rhs) at 2. apply bounded_monomial.
  - rewrite pob_one_r in Hr. injection Hr as <-.
    rewrite <-(right_id_L ∅ (⊎) lhs) at 2. apply bounded_monomial.
  - rewrite (pob_sorted _ _ _ t l) in Hr by done. injection Hr as <-.
    apply bounded_monomial.
  - rewrite (pob_inversion _ _ _ t l) in Hr by done.
    apply bind_Some in Hr as (terms & Hc & Hr).
    apply bind_Some in Hr as (x & Hx & Hr).
    apply (second_product_bounded lhs rhs t l Ht Hd (pob n) x); [| |done].
    + intros m' Hm'.
      apply (first_product_bounded lhs t l (pob n) terms x); [|done..].
      intros b p _ Hp. by apply IH.
    + intros a p _ Hp. by apply IH.
Qed.

Lemma pob_fuel n n' lhs rhs :
  (rk lhs rhs < n)%nat → (rk lhs rhs < n')%nat →
  pob n lhs rhs = pob n' lhs rhs.
Proof.
  revert n' lhs rhs. induction n as [|n IH]; intros n' lhs rhs Hn Hn'; [lia|].
  destruct n' as [|n']; [lia|].
  by_shape lhs rhs.
  - by rewrite !pob_one_l.
  - by rewrite !pob_one_r.
  - by rewrite !(pob_sorted _ _ _ t l).
  - rewrite !(pob_inversion _ _ _ t l) by done.
    destruct (correction bracket t l) as [terms|] eqn:Hc; simpl; [|done].
    rewrite (mul_with_ext (pob n) (pob n')); last first.
    { intros ml mr Hml Hmr. apply monomial_support in Hml as ->.
      pose proof (rank_first lhs rhs t l Ht Hd Hlt terms mr Hc Hmr).
      apply IH; lia. }
    destruct (mul_with (pob n') _ terms) as [x|] eqn:Hx; simpl; [|done].
    apply mul_with_ext. intros ml mr Hml Hmr.
    apply monomial_support in Hmr as ->.
    assert ((rk ml (rhs ∖ gen l) < rk lhs rhs)%nat).
    { apply (rank_second lhs rhs t l Ht Hd Hlt).
      all: apply (first_product_bounded lhs t l (pob n') terms x);
        [|done..].
      all: intros b p _ Hp; by eapply pob_bounded. }
    apply IH; lia.
Qed.

Lemma pob_total n lhs rhs :
  (∀ p q, is_Some (bracket p q)) →
  (rk lhs rhs < n)%nat → is_Some (pob n lhs rhs).
Proof.
  intros Hbr. revert lhs rhs.
  induction n as [|n IH]; intros lhs rhs Hn; [lia|].
  by_shape lhs rhs.
  - by rewrite pob_one_l.
  - by rewrite pob_one_r.
  - by rewrite (pob_sorted _ _ _ t l).
  - rewrite (pob_inversion _ _ _ t l) by done.
    destruct (correction bracket t l) as [terms|] eqn:Hc; simpl; last first.
    { unfold correction in Hc. destruct (Hbr t l) as [mc Hmc].
      by rewrite Hmc in Hc. }
    destruct (mul_with_is_Some (pob n) (monomial (lhs ∖ gen t)) terms)
      as [x Hx].
    { intros ml mr Hml Hmr. apply monomial_support in Hml as ->.
      pose proof (rank_first lhs rhs t l Ht Hd Hlt terms mr Hc Hmr).
      apply IH; lia. }
    rewrite Hx. simpl. apply mul_with_is_Some.
    intros ml mr Hml Hmr. apply monomial_support in Hmr as ->.
    assert ((rk ml (rhs ∖ gen l) < rk lhs rhs)%nat).
    { apply (rank_second lhs rhs t l Ht Hd Hlt).
      all: apply (first_product_bounded lhs t l (pob n) terms x);
        [|done..].
      all: intros b p _ Hp; by eapply pob_bounded. }
    apply IH; lia.
Qed.

(** Any budget above the rank computes [pbw_product]. *)
Lemma pob_pbw_product n lhs rhs :
  (rk lhs rhs < n)%nat →
  pob n lhs rhs = pbw_product basis_key bracket lhs rhs.
Proof. intros Hn. unfold pbw_product. apply pob_fuel; lia. Qed.

Abbreviation product := (pbw_product basis_key bracket).
Abbreviation mul := (pbw_mul basis_key bracket).

Lemma pbw_product_bounded lhs rhs r :
  product lhs rhs = Some r → bounded lhs rhs r.
Proof. apply pob_bounded. Qed.

Lemma pbw_product_total lhs rhs :
  (∀ p q, is_Some (bracket p q)) → is_Some (product lhs rhs).
Proof. intros Hbr. apply pob_total; [done|lia]. Qed.

Lemma pbw_product_one_l rhs : product ∅ rhs = Some (monomial rhs).
Proof. apply pob_one_l. Qed.

Lemma pbw_product_one_r lhs : product lhs ∅ = Some (monomial lhs).
Proof. apply pob_one_r. Qed.

Lemma pbw_product_sorted lhs rhs trail lead :
  lhs ≠ ∅ → rhs ≠ ∅ →
  trailing lhs = Some trail → leading rhs = Some lead →
  basis_key trail ≤ basis_key lead →
  product lhs rhs = Some (monomial (lhs ⊎ rhs)).
Proof. apply pob_sorted. Qed.

Lemma pbw_product_inversion lhs rhs trail lead :
  lhs ≠ ∅ → rhs ≠ ∅ →
  trailing lhs = Some trail → leading rhs = Some lead →
  basis_key lead < basis_key trail →
  product lhs rhs =
    terms ← correction bracket trail lead;
    x ← mul (monomial (lhs ∖ gen trail)) terms;
    mul x (monomial (rhs ∖ gen lead)).
Proof.
  intros Hl Hr Ht Hd Hlt. unfold pbw_product at 1.
  rewrite (pob_inversion _ _ _ trail lead) by done.
  destruct (correction bracket trail lead) as [terms|] eqn:Hc;
    simpl; [|done].
  unfold pbw_mul.
  rewrite (mul_with_ext (pob (rk lhs rhs)) product); last first.
  { intros ml mr Hml Hmr. apply monomial_support in Hml as ->.
    apply pob_pbw_product. by eapply rank_first. }
  destruct (mul_with product _ terms) as [x|] eqn:Hx; simpl; [|done].
  apply mul_with_ext. intros ml mr Hml Hmr.
  apply monomial_support in Hmr as ->.
  apply pob_pbw_product.
  apply (rank_second lhs rhs trail lead Ht Hd Hlt).
  all: apply (first_product_bounded lhs trail lead product terms x);
    [|done..].
  all: intros b p _ Hp; by eapply pbw_product_bounded.
Qed.

Lemma recursive_calls_measure lhs rhs calls a b :
  recursive_calls basis_key bracket lhs rhs = Some calls →
  (a, b) ∈ calls → measure_lt basis_key a b lhs rhs.
Proof.
  unfold recursive_calls. intros Hcalls Hin.
  by_shape lhs rhs.
  - rewrite decide_True in Hcalls by done.
    injection Hcalls as <-. by apply elem_of_nil in Hin.
  - rewrite decide_False, decide_True in Hcalls by done.
    injection Hcalls as <-. by apply elem_of_nil in Hin.
  - rewrite decide_False, decide_False, Ht, Hd in Hcalls by done.
    simpl in Hcalls. rewrite decide_True in Hcalls by done.
    injection Hcalls as <-. by apply elem_of_nil in Hin.
  - rewrite decide_False, decide_False, Ht, Hd in Hcalls by done.
    simpl in Hcalls. rewrite decide_False in Hcalls by lia.
    apply bind_Some in Hcalls as (terms & Hc & Hcalls).
    rewrite (floordiv_gen lhs t) in Hcalls
      by (by apply (trailing_support_max basis_key)).
    simpl in Hcalls. apply bind_Some in Hcalls as (x & Hx & Hcalls).
    rewrite (floordiv_gen rhs l) in Hcalls
      by (by apply (leading_support_min basis_key)).
    simpl in Hcalls. injection Hcalls as <-.
    apply elem_of_app in Hin as [Hin|Hin];
      apply list_elem_of_fmap in Hin as ([[ml mr] c] & [= -> ->] & Hin);
      apply elem_of_term_pairs in Hin as (cl & cr & Hml & Hmr & _).
    + assert (ml = lhs ∖ gen t) as -> by (apply monomial_support; eauto).
      eapply measure_first; eauto.
    + assert (mr = rhs ∖ gen l) as -> by (apply monomial_support; eauto).
      apply (measure_second lhs rhs t l Ht Hd Hlt).
      all: apply (first_product_bounded lhs t l product terms x);
        [|done..| eauto].
      all: intros b p _ Hp; by eapply pbw_product_bounded.
Qed.

Lemma recursive_calls_total lhs rhs :
  (∀ p q, is_Some (bracket p q)) →
  is_Some (recursive_calls basis_key bracket lhs rhs).
Proof.
  intros Hbr. unfold recursive_calls.
  by_shape lhs rhs.
  - by rewrite decide_True.
  - by rewrite decide_False, decide_True.
  - rewrite decide_False, decide_False, Ht, Hd by done.
    simpl. by rewrite decide_True.
  - rewrite decide_False, decide_False, Ht, Hd by done.
    simpl. rewrite decide_False by lia.
    unfold correction. destruct (Hbr t l) as [mc ->]. simpl.
    rewrite (floordiv_gen lhs t)
      by (by apply (trailing_support_max basis_key)).
    simpl. destruct (mul_with_is_Some product (monomial (lhs ∖ gen t))
      (lc_add (lift_terms mc) (monomial (monoid_mul (gen l) (gen t)))))
      as [x Hx].
    { intros. by apply pbw_product_total. }
    unfold pbw_mul. rewrite Hx. simpl.
    rewrite (floordiv_gen rhs l)
      by (by apply (leading_support_min basis_key)).
    done.
Qed.
End PBWFacts.

(** ** The claims about the product on the basis *)

Section PBWClaims.
Context `{Countable G} `{BaseRing R}.
Variable basis_key : G → Z.
Variable bracket : G → G → option (gmap G R).

Implicit Types lhs rhs a b m : gmultiset G.

Abbreviation product := (pbw_product basis_key bracket).
Abbreviation mul := (pbw_mul basis_key bracket).

Lemma size_exponents m :
  size m = sum_list_with (λ xe : G * positive, Pos.to_nat xe.2)
             (map_to_list (gmultiset_car m)).
Proof.
  unfold size, gmultiset_size, elements, gmultiset_elements.
  destruct m as [X]. simpl.
  induction (map_to_list X) as [|[x n] l IH]; simpl; [done|].
  rewrite length_app, length_replicate. f_equal. exact IH.
Qed.

(** C3: the identity law.  The product of a monomial [a] with the
    identity monomial, on either side, is the single monomial [a] with
    coefficient one. *)
Theorem product_on_basis_identity a :
  product a one_basis = Some {[ a := r1 ]}
  ∧ product one_basis a = Some {[ a := r1 ]}.
Proof.
  split; [apply pbw_product_one_r|apply pbw_product_one_l].
Qed.

(** C5, amended: with a bracket defined on every pair of generators the
    recursion terminates: some result is returned for every budget above
    the rank, and every recursive call is on a pair that is smaller in
    the lexicographic order on (total degree, inversions). *)
Theorem product_on_basis_terminates lhs rhs :
  (∀ p q, is_Some (bracket p q)) →
  (∃ r, ∀ n, (rank basis_key lhs rhs < n)%nat →
      product_on_basis basis_key bracket n lhs rhs = Some r)
  ∧ (∃ calls, recursive_calls basis_key bracket lhs rhs = Some calls
      ∧ ∀ a b, (a, b) ∈ calls → measure_lt basis_key a b lhs rhs).
Proof.
  intros Hbr. split.
  - destruct (pbw_product_total basis_key bracket lhs rhs Hbr) as [r Hr].
    exists r. intros n Hn. by rewrite pob_pbw_product.
  - destruct (recursive_calls_total basis_key bracket lhs rhs Hbr)
      as [calls Hcalls].
    exists calls. split; [done|]. intros a b Hin.
    by eapply recursive_calls_measure.
Qed.

(** C6: the degree bound.  The product of two monomials is returned,
    and the degree of each of its monomials is at most the sum of the
    degrees of the operands; the degree of a monomial is the sum of its
    exponents. *)
Theorem product_on_basis_degree_bound a b :
  (∀ p q, is_Some (bracket p q)) →
  (∃ r, product a b = Some r
      ∧ ∀ m c, r !! m = Some c →
          (degree_on_basis m ≤ degree_on_basis a + degree_on_basis b)%nat)
  ∧ (∀ m, degree_on_basis m
          = sum_list_with (λ xe : G * positive, Pos.to_nat xe.2)
              (map_to_list (gmultiset_car m))).
Proof.
  intros Hbr. split.
  - destruct (pbw_product_total basis_key bracket a b Hbr) as [r Hr].
    exists r. split; [done|]. intros m c Hm.
    apply (pbw_product_bounded basis_key bracket a b r Hr m). eauto.
  - intros m. apply size_exponents.
Qed.
End PBWClaims.

(** C4: when neither operand is the identity and the trailing generator
    of [lhs] is not above the leading generator of [rhs], in particular
    when they are equal, the product is the single monomial [lhs * rhs],
    whose exponents are the sums of the exponents of [lhs] and [rhs], with
    coefficient one.  The bracket oracle plays no part: the result is the
    same with an oracle that fails on every pair. *)
Theorem product_on_basis_sorted `{Countable G} `{BaseRing R}
    (basis_key : G → Z) (bracket : G → G → option (gmap G R))
    (lhs rhs : gmultiset G) (trail lead : G) :
  lhs ≠ one_basis → rhs ≠ one_basis →
  trailing_support basis_key lhs = Some trail →
  leading_support basis_key rhs = Some lead →
  basis_key trail ≤ basis_key lead ∨ trail = lead →
  pbw_product basis_key bracket lhs rhs = Some {[ monoid_mul lhs rhs := r1 ]}
  ∧ pbw_product basis_key (λ _ _, None) lhs rhs
    = Some {[ monoid_mul lhs rhs := r1 ]}
  ∧ ∀ x, multiplicity x (monoid_mul lhs rhs)
         = (multiplicity x lhs + multiplicity x rhs)%nat.
Proof.
  intros Hl Hr Ht Hd Hle.
  assert (basis_key trail ≤ basis_key lead) by (destruct Hle; [done|subst; lia]).
  split; [|split].
  - by apply (pbw_product_sorted basis_key bracket lhs rhs trail lead).
  - by apply (pbw_product_sorted basis_key _ lhs rhs trail lead).
  - intros x. apply multiplicity_disj_union.
Qed.

(** ** The lift from the Lie algebra, its inverse, and the bracket *)

Section PBWRing.
Context `{Countable G} `{BaseRing R} `{!BaseRingLaws R}.
Variable basis_key : G → Z.
Variable bracket : G → G → option (gmap G R).

Implicit Types lhs rhs a b m : gmultiset G.
Implicit Types v mc : gmap G R.

Abbreviation product := (pbw_product basis_key bracket).

#[local] Instance gen_inj : Inj (=) (=) (gen (G:=G)).
Proof. intros x y Hxy. by apply (inj singletonMS). Qed.

Lemma lift_terms_kmap mc : zero_free mc → lift_terms mc = kmap gen mc.
Proof.
  intros Hmc. unfold lift_terms, kmap. apply sum_of_terms_list_to_map.
  - rewrite <-list_fmap_compose.
    rewrite (list_fmap_ext _ (gen ∘ fst) (map_to_list mc))
      by (by intros ? [??]).
    rewrite list_fmap_compose. apply (NoDup_fmap_2 _).
    apply NoDup_fst_map_to_list.
  - intros k c Hin. apply list_elem_of_fmap in Hin as ([t c'] & [= -> ->] & Hin).
    apply elem_of_map_to_list in Hin. by eapply Hmc.
Qed.

Lemma lift_lift_terms v : lift v = lift_terms v.
Proof.
  unfold lift, lift_terms, basis_function.
  by rewrite <-linear_combination_monomials, <-list_fmap_compose.
Qed.

Lemma zero_free_kmap v : zero_free v → zero_free (kmap (M2:=gmap _) gen v).
Proof.
  intros Hv k c Hk. apply lookup_kmap_Some in Hk as (t & -> & Hk); [|apply _].
  by eapply Hv.
Qed.

Lemma inv_supp_gen t : inv_supp basis_key (gen t) = Some t.
Proof.
  unfold inv_supp, length_mon. rewrite size_gen.
  rewrite decide_False by (intros Hne; by apply Hne).
  apply leading_support_gen.
Qed.

Lemma inv_supp_None m :
  inv_supp basis_key m = None ↔ degree_on_basis m ≠ 1%nat.
Proof.
  unfold inv_supp, degree_on_basis, length_mon.
  case_decide as Hsz; [done|]. split; [|done]. intros Hnone.
  destruct (leading_support_is_Some basis_key m) as [l Hl];
    [|by rewrite Hl in Hnone].
  intros ->. by rewrite gmultiset_size_empty in Hsz.
Qed.

Lemma preimage_None (x : gmap (gmultiset G) R) :
  preimage basis_key x = None ↔
  ∃ m, is_Some (x !! m) ∧ degree_on_basis m ≠ 1%nat.
Proof.
  unfold preimage. rewrite bind_None. split.
  - intros [Hnone|(ts & _ & ?)]; [|done].
    apply mapM_None_1, Exists_exists in Hnone as ([m c] & Hin & Hm).
    apply elem_of_map_to_list in Hin. simpl in Hm.
    exists m. split; [eauto|]. apply inv_supp_None.
    by destruct (inv_supp basis_key m).
  - intros (m & [c Hc] & Hm). left. apply mapM_None_2, Exists_exists.
    exists (m, c). split; [by apply elem_of_map_to_list|]. simpl.
    apply inv_supp_None in Hm. by rewrite Hm.
Qed.

Lemma preimage_terms (l : list (gmultiset G * R)) :
  Forall (λ p : gmultiset G * R, ∃ t, p.1 = gen t) l →
  ∃ ts, mapM (λ p : gmultiset G * R,
                t ← inv_supp basis_key p.1; Some (t, p.2)) l = Some ts
        ∧ prod_map gen id <$> ts = l.
Proof.
  induction 1 as [|[m c] l [t Ht] _ (ts & Hts & Hl)]; simpl.
  { by exists []. }
  simpl in Ht. subst m. rewrite inv_supp_gen. simpl. rewrite Hts. simpl.
  exists ((t, c) :: ts). by rewrite <-Hl.
Qed.

Lemma preimage_lift v : zero_free v → preimage basis_key (lift v) = Some v.
Proof.
  intros Hv. rewrite lift_lift_terms, lift_terms_kmap by done.
  unfold preimage.
  destruct (preimage_terms (map_to_list (kmap (M2:=gmap _) gen v)))
    as (ts & -> & Hts).
  { apply Forall_forall. intros [m c] Hin.
    apply elem_of_map_to_list, lookup_kmap_Some in Hin; [|apply _].
    destruct Hin as (t & -> & _). by exists t. }
  simpl. f_equal.
  assert (∀ t c, (t, c) ∈ ts ↔ v !! t = Some c) as Hin.
  { intros t c.
    rewrite <-(list_elem_of_fmap_inj (prod_map gen id)), Hts.
    change (prod_map gen id (t, c)) with (gen t, c).
    rewrite elem_of_map_to_list.
    rewrite lookup_kmap_Some by apply _. split.
    - intros (t' & Heq & Ht'). by apply (inj gen) in Heq as ->.
    - intros Ht. by exists t. }
  assert (NoDup ts.*1) as Hnd.
  { apply (NoDup_fmap_1 gen).
    rewrite <-list_fmap_compose.
    rewrite (list_fmap_ext _ (fst ∘ prod_map gen id) ts)
      by (by intros ? [??]).
    rewrite list_fmap_compose, Hts. apply NoDup_fst_map_to_list. }
  rewrite sum_of_terms_list_to_map; [|done|].
  - apply map_eq. intros t. apply option_eq. intros c.
    by rewrite <-elem_of_list_to_map, Hin.
  - intros t c Htc. apply Hin in Htc. by eapply Hv.
Qed.

Lemma size_one_gen m : size m = 1%nat → ∃ t, m = gen t.
Proof.
  intros Hsz. destruct (gmultiset_choose m) as [t Ht].
  { intros ->. by rewrite gmultiset_size_empty in Hsz. }
  exists t. rewrite (gmultiset_disj_union_difference' t m Ht) in Hsz |- *.
  rewrite gmultiset_size_disj_union, gmultiset_size_singleton in Hsz.
  assert (m ∖ {[+ t +]} = ∅) as -> by (apply gmultiset_size_empty_inv; lia).
  unfold gen. by rewrite (right_id_L ∅ (⊎)).
Qed.

Lemma preimage_single_generators (x : gmap (gmultiset G) R) :
  zero_free x →
  (∀ m, is_Some (x !! m) → degree_on_basis m = 1%nat) →
  ∃ v, preimage basis_key x = Some v ∧ lift v = x.
Proof.
  intros Hz Hdeg.
  destruct (preimage_terms (map_to_list x)) as (ts & Hm & Hts).
  { apply Forall_forall. intros [m c] Hin. apply elem_of_map_to_list in Hin.
    apply size_one_gen, Hdeg. eauto. }
  assert (∀ t c, (t, c) ∈ ts ↔ x !! gen t = Some c) as Hin.
  { intros t c.
    rewrite <-(list_elem_of_fmap_inj (prod_map gen id)), Hts.
    change (prod_map gen id (t, c)) with (gen t, c).
    by rewrite elem_of_map_to_list. }
  assert (NoDup ts.*1) as Hnd.
  { apply (NoDup_fmap_1 gen).
    rewrite <-list_fmap_compose.
    rewrite (list_fmap_ext _ (fst ∘ prod_map gen id) ts)
      by (by intros ? [??]).
    rewrite list_fmap_compose, Hts. apply NoDup_fst_map_to_list. }
  unfold preimage. rewrite Hm. simpl.
  exists (sum_of_terms ts). split; [done|].
  rewrite sum_of_terms_list_to_map; [|done|]; last first.
  { intros t c Htc. apply Hin in Htc. by eapply Hz. }
  assert (zero_free (list_to_map ts : gmap G R)) as Hzv.
  { intros t c Ht. apply elem_of_list_to_map, Hin in Ht; [|done].
    by eapply Hz. }
  rewrite lift_lift_terms, lift_terms_kmap by done.
  apply map_eq. intros m. apply option_eq. intros c.
  rewrite lookup_kmap_Some by apply _. split.
  - intros (t & -> & Ht). by apply elem_of_list_to_map, Hin in Ht.
  - intros Hx. destruct (size_one_gen m) as [t ->]; [apply Hdeg; eauto|].
    exists t. split; [done|]. by apply elem_of_list_to_map, Hin.
Qed.

(** C2: antisymmetry consistency.  Over a base ring that is not trivial,
    for generators [i] above [j], the two products are returned and their
    difference is the bracket of [i] and [j], read as a linear
    combination of single generators: its monomials are generators, with
    the coefficients of the bracket when the bracket, as every element,
    stores no zero coefficient. *)
Theorem antisymmetry_consistency i j mc :
  (r1 : R) ≠ r0 →
  basis_key j < basis_key i →
  bracket i j = Some mc →
  ∃ p q, product (gen i) (gen j) = Some p
       ∧ product (gen j) (gen i) = Some q
       ∧ lc_sub p q = lift_terms mc
       ∧ (∀ m, is_Some (lift_terms mc !! m) → ∃ t, m = gen t)
       ∧ (zero_free mc → ∀ t, lift_terms mc !! gen t = mc !! t).
Proof.
  intros H10 Hlt Hmc.
  exists (lc_add (lift_terms mc) (monomial (gen j ⊎ gen i))),
         (monomial (gen j ⊎ gen i)).
  assert (∀ m, is_Some (lift_terms mc !! m) → ∃ t, m = gen t) as Hsupp.
  { intros m Hm. unfold lift_terms in Hm.
    apply sum_of_terms_support in Hm as [c Hc].
    apply list_elem_of_fmap in Hc as ([t c'] & [= -> ->] & _). by exists t. }
  split; [|split; [|split; [|split]]].
  - rewrite (pbw_product_inversion _ _ _ _ i j);
      [|apply gmultiset_non_empty_singleton..
       |apply trailing_support_gen|apply leading_support_gen|done].
    unfold correction. rewrite Hmc. simpl.
    unfold gen at 3 4 7 8. rewrite !gmultiset_difference_diag.
    assert (zero_free (lc_add (lift_terms mc)
              (monomial (R:=R) (monoid_mul (gen j) (gen i))))) as Hz.
    { apply zero_free_lc_add; [|by apply zero_free_monomial].
      apply zero_free_sum_of_terms. }
    unfold pbw_mul.
    rewrite mul_with_unit_l; [|apply pbw_product_one_l|done]. simpl.
    rewrite mul_with_unit_r; [done|apply pbw_product_one_r|done].
  - apply (pbw_product_sorted _ _ _ _ j i);
      [apply gmultiset_non_empty_singleton..
      |apply trailing_support_gen|apply leading_support_gen|lia].
  - apply lc_sub_add_monomial.
    destruct (lift_terms mc !! (gen j ⊎ gen i)) as [c|] eqn:Hc; [|done].
    destruct (Hsupp (gen j ⊎ gen i)) as [t Ht]; [eauto|].
    apply (f_equal size) in Ht. rewrite size_gen, size_gen2 in Ht. lia.
  - done.
  - intros Hzf t. rewrite lift_terms_kmap by done. apply (lookup_kmap gen).
Qed.

(** C8: the preimage under the lift is a partial inverse.  [inv_supp]
    is [None] exactly on the monomials whose length is not one; the
    preimage of an element fails exactly when one of its monomials has a
    degree other than one, so it fails on every basis monomial of degree
    other than one and on the identity.  The lift of an element of the
    Lie algebra is sent back to that element, and an element whose
    monomials are single generators has a preimage, whose lift it is. *)
Theorem preimage_partial_inverse :
  (r1 : R) ≠ r0 →
  (∀ m, inv_supp basis_key m = None ↔ length_mon m ≠ 1%nat)
  ∧ (∀ x : gmap (gmultiset G) R, preimage basis_key x = None ↔
       ∃ m, is_Some (x !! m) ∧ degree_on_basis m ≠ 1%nat)
  ∧ (∀ m, degree_on_basis m ≠ 1%nat →
       preimage basis_key (monomial (R:=R) m) = None)
  ∧ preimage basis_key (monomial (R:=R) one_basis) = None
  ∧ (∀ v, zero_free v → preimage basis_key (lift v) = Some v)
  ∧ (∀ x : gmap (gmultiset G) R, zero_free x →
       (∀ m, is_Some (x !! m) → degree_on_basis m = 1%nat) →
       ∃ v, preimage basis_key x = Some v ∧ lift v = x).
Proof.
  intros H10.
  assert (∀ m, degree_on_basis m ≠ 1%nat →
    preimage basis_key (monomial (R:=R) m) = None) as Hmon.
  { intros m Hm. apply preimage_None. exists m. split; [|done].
    rewrite monomial_lookup. eauto. }
  split; [|split; [|split; [|split; [|split]]]].
  - apply inv_supp_None.
  - apply preimage_None.
  - done.
  - apply Hmon. unfold degree_on_basis, length_mon, one_basis, monoid_one.
    by rewrite gmultiset_size_empty.
  - apply preimage_lift.
  - apply preimage_single_generators.
Qed.
End PBWRing.

(** ** The group algebra constructor and its coercions *)

Section GroupAlgebraClaims.
Variable Obj Alg AlgebraError : Type.
Variable in_Magmas in_AdditiveMagmas in_Rings : Obj → bool.
Variable algebra : Obj → Obj → AlgebraError + Alg.

Abbreviation GA := (GroupAlgebra in_Magmas in_AdditiveMagmas in_Rings algebra).


End GroupAlgebraClaims.


Section CoercionClaims.
Variable Obj Alg Hom : Type.
Variable basis_keys base_ring : Alg → Obj.
Variable has_coerce_map_from : Obj → Obj → bool.
Variable is_group_algebra : Alg → bool.
Variable as_algebra : Obj → option Alg.
Variable coerce_map_from : Obj → Obj → option Hom.

Abbreviation coerce :=
  (_coerce_map_from_ basis_keys base_ring has_coerce_map_from
     is_group_algebra as_algebra coerce_map_from).

(** C10: when the basis keys of a group algebra have a coercion from
    [S], the method returns whether the category of the algebra is a
    subcategory of the group algebras; so a coercion from [S] exists
    exactly in that case, and an algebra that is not a group algebra,
    such as one over an additive magma, has none. *)
Theorem coerce_map_from_group (self : Alg) (S : Obj) :
  has_coerce_map_from (basis_keys self) S = true →
  coerce self S = CBool (is_group_algebra self)
  ∧ (admits_coercion (coerce self S) = true ↔ is_group_algebra self = true)
  ∧ (is_group_algebra self = false → admits_coercion (coerce self S) = false).
Proof.
  intros Hco. unfold _coerce_map_from_. rewrite Hco. simpl. done.
Qed.
End CoercionClaims.

(** ** The three-dimensional Lie algebra *)

Section Sl2Facts.
Import Sl2.

Abbreviation pbw := (pbw_product key bracket).

Lemma bracket_total p q : is_Some (bracket p q).
Proof. unfold bracket. eauto. Qed.

(** C7: in the Lie algebra with [[E, F] = H], [[H, E] = 2 E],
    [[H, F] = -2 F] and the order [E < F < H], [F * E = E * F - H],
    [E * F - F * E = H] and [H * F = F * H - 2 F]. *)
Theorem sl2_products :
  bracket E F = Some {[ H := 1 ]}
  ∧ bracket H E = Some {[ E := 2 ]}
  ∧ bracket H F = Some {[ F := -2 ]}
  ∧ key E < key F < key H
  ∧ pbw (gen F) (gen E) = Some {[ gen E ⊎ gen F := 1; gen H := -1 ]}
  ∧ (p ← pbw (gen E) (gen F); q ← pbw (gen F) (gen E); Some (lc_sub p q))
    = Some {[ gen H := 1 ]}
  ∧ pbw (gen H) (gen F) = Some {[ gen F ⊎ gen H := 1; gen F := -2 ]}.
Proof.
  repeat split; try reflexivity; compute_done.
Qed.

(** C5, as stated, fails: the number of out-of-order adjacent pairs does
    not decrease at every recursive call.  The product of [F * H] and
    [E] calls itself on [F] and [E * H]; the words [F H E] and [F E H]
    both have one such pair. *)
Lemma adjacent_pairs_not_decreasing :
  ¬ (∀ lhs rhs calls a b,
       recursive_calls key bracket lhs rhs = Some calls →
       (a, b) ∈ calls →
       (out_of_order_pairs key a b < out_of_order_pairs key lhs rhs)%nat).
Proof.
  intros Hdec.
  assert (match recursive_calls key bracket (gen F ⊎ gen H) (gen E) with
          | Some calls => bool_decide ((gen F, gen E ⊎ gen H) ∈ calls)
          | None => false
          end = true) as Hcall by (vm_compute; reflexivity).
  destruct (recursive_calls key bracket (gen F ⊎ gen H) (gen E))
    as [calls|] eqn:Hcalls; [|done].
  apply bool_decide_eq_true_1 in Hcall.
  specialize (Hdec _ _ _ _ _ Hcalls Hcall).
  assert (out_of_order_pairs key (gen F) (gen E ⊎ gen H) = 1%nat) as Ha
    by (vm_compute; reflexivity).
  assert (out_of_order_pairs key (gen F ⊎ gen H) (gen E) = 1%nat) as Hb
    by (vm_compute; reflexivity).
  lia.
Qed.

(** The inversions alone do not decrease either: the product of [F] and
    [E * F^2] calls itself on [H] and [F^2], with two inversions
    against one. *)
Lemma inversions_not_decreasing :
  ¬ (∀ lhs rhs calls a b,
       recursive_calls key bracket lhs rhs = Some calls →
       (a, b) ∈ calls →
       (inversions key a b < inversions key lhs rhs)%nat).
Proof.
  intros Hdec.
  assert (match recursive_calls key bracket (gen F)
                  (gen E ⊎ gen F ⊎ gen F) with
          | Some calls => bool_decide ((gen H, gen F ⊎ gen F) ∈ calls)
          | None => false
          end = true) as Hcall by (vm_compute; reflexivity).
  destruct (recursive_calls key bracket (gen F) (gen E ⊎ gen F ⊎ gen F))
    as [calls|] eqn:Hcalls; [|done].
  apply bool_decide_eq_true_1 in Hcall.
  specialize (Hdec _ _ _ _ _ Hcalls Hcall).
  assert (inversions key (gen H) (gen F ⊎ gen F) = 2%nat) as Ha
    by (vm_compute; reflexivity).
  assert (inversions key (gen F) (gen E ⊎ gen F ⊎ gen F) = 1%nat) as Hb
    by (vm_compute; reflexivity).
  lia.
Qed.
End Sl2Facts.

(** ** The theorems at concrete inputs *)

Section Witnesses.
Import Sl2.

(** [F * E - E * F = -H]. *)
Lemma antisymmetry_consistency_witness :
  ∃ p q, pbw_product key bracket (gen F) (gen E) = Some p
       ∧ pbw_product key bracket (gen E) (gen F) = Some q
       ∧ lc_sub p q = lift_terms {[ H := -1 ]}
       ∧ (∀ m, is_Some (lift_terms ({[ H := -1 ]} : gmap gen3 Z) !! m) →
               ∃ t, m = gen t)
       ∧ (zero_free ({[ H := -1 ]} : gmap gen3 Z) →
          ∀ t, lift_terms ({[ H := -1 ]} : gmap gen3 Z) !! gen t
               = ({[ H := -1 ]} : gmap gen3 Z) !! t).
Proof.
  apply (antisymmetry_consistency key bracket F E).
  - simpl. lia.
  - simpl. lia.
  - reflexivity.
Defined.

(** [E * F], already sorted. *)
Lemma product_on_basis_sorted_witness :
  pbw_product key bracket (gen E) (gen F)
    = Some {[ monoid_mul (gen E) (gen F) := 1 ]}
  ∧ pbw_product key (λ _ _, None) (gen E) (gen F)
    = Some {[ monoid_mul (gen E) (gen F) := 1 ]}
  ∧ ∀ x, multiplicity x (monoid_mul (gen E) (gen F))
         = (multiplicity x (gen E) + multiplicity x (gen F))%nat.
Proof.
  refine (product_on_basis_sorted key bracket (gen E) (gen F) E F _ _ _ _ _).
  - compute_done.
  - compute_done.
  - vm_compute. reflexivity.
  - vm_compute. reflexivity.
  - left. simpl. lia.
Defined.

(** The product of [F * H] and [E] terminates. *)
Lemma product_on_basis_terminates_witness :
  (∃ r, ∀ n, (rank key (gen F ⊎ gen H) (gen E) < n)%nat →
      product_on_basis key bracket n (gen F ⊎ gen H) (gen E) = Some r)
  ∧ (∃ calls,
      recursive_calls key bracket (gen F ⊎ gen H) (gen E) = Some calls
      ∧ ∀ a b, (a, b) ∈ calls →
          measure_lt key a b (gen F ⊎ gen H) (gen E)).
Proof.
  apply (product_on_basis_terminates key bracket (gen F ⊎ gen H) (gen E)).
  intros p q. unfold bracket. eauto.
Defined.

(** The degrees of the monomials of [H^2 * F^2]. *)
Lemma product_on_basis_degree_bound_witness :
  (∃ r, pbw_product key bracket (gen H ⊎ gen H) (gen F ⊎ gen F) = Some r
      ∧ ∀ m c, r !! m = Some c →
          (degree_on_basis m ≤ degree_on_basis (gen H ⊎ gen H)
                               + degree_on_basis (gen F ⊎ gen F))%nat)
  ∧ (∀ m : gmultiset gen3, degree_on_basis m
          = sum_list_with (λ xe : gen3 * positive, Pos.to_nat xe.2)
              (map_to_list (gmultiset_car m))).
Proof.
  apply (product_on_basis_degree_bound key bracket).
  intros p q. unfold bracket. eauto.
Defined.

(** The preimage over the integers. *)
Lemma preimage_partial_inverse_witness :
  (∀ m, inv_supp key m = None ↔ length_mon m ≠ 1%nat)
  ∧ (∀ x : gmap (gmultiset gen3) Z, preimage key x = None ↔
       ∃ m, is_Some (x !! m) ∧ degree_on_basis m ≠ 1%nat)
  ∧ (∀ m, degree_on_basis m ≠ 1%nat →
       preimage key (monomial (R:=Z) m) = None)
  ∧ preimage key (monomial (R:=Z) one_basis) = None
  ∧ (∀ v : gmap gen3 Z, zero_free v → preimage key (lift v) = Some v)
  ∧ (∀ x : gmap (gmultiset gen3) Z, zero_free x →
       (∀ m, is_Some (x !! m) → degree_on_basis m = 1%nat) →
       ∃ v, preimage key x = Some v ∧ lift v = x).
Proof.
  apply (preimage_partial_inverse key).
  simpl. lia.
Defined.


(** The algebra of the additive cyclic group has no coercion from the
    group. *)
Lemma coerce_map_from_group_witness :
  Parents._coerce_map_from_
    (Parents.Algebra_of Parents.AdditiveCyclic3 Parents.ZZ)
    Parents.AdditiveCyclic3
  = CBool false.
Proof.
  apply (coerce_map_from_group Parents.obj Parents.alg unit
           Parents.basis_keys Parents.base_ring
           Parents.has_coerce_map_from Parents.is_group_algebra
           Parents.as_algebra Parents.coerce_map_from
           (Parents.Algebra_of Parents.AdditiveCyclic3 Parents.ZZ)
           Parents.AdditiveCyclic3).
  reflexivity.
Defined.
End Witnesses.

(** * Further properties *)

(** ** Coefficients of linear combinations *)

Section CoefficientFacts.
Context `{Countable K} `{BaseRing R} `{!BaseRingLaws R}.

Implicit Types a b x p : gmap K R.
Implicit Types k m : K.

Add Ring base_ring_ring : ring_laws.

Lemma zero_free_lc_scale c a : zero_free (lc_scale c a).
Proof.
  intros k d. unfold lc_scale. rewrite lookup_omap.
  destruct (a !! k) as [y|]; simpl; [|done].
  intros Hd. by apply nonzero_Some in Hd as [-> ?].
Qed.

Lemma zero_free_linear_combination (l : list (gmap K R * R)) :
  zero_free (linear_combination l).
Proof.
  unfold linear_combination.
  assert (zero_free (∅ : gmap K R)) as Hacc
    by (intros k c; by rewrite lookup_empty).
  revert Hacc. generalize (∅ : gmap K R).
  induction l as [|[p c] l IH]; simpl; intros acc Hacc; [done|].
  apply IH, zero_free_lc_add; [done|apply zero_free_lc_scale].
Qed.

Lemma zero_free_mul_with (f : K → K → option (gmap K R)) a b x :
  mul_with f a b = Some x → zero_free x.
Proof.
  unfold mul_with. intros Hx. apply bind_Some in Hx as (rs & _ & [= <-]).
  apply zero_free_linear_combination.
Qed.

Lemma coeff_lookup a k c : coeff a k = c → c ≠ r0 → a !! k = Some c.
Proof.
  unfold coeff. destruct (a !! k); simpl; [by intros ->|].
  intros <-. done.
Qed.

Lemma coeff_None a k : a !! k = None → coeff a k = r0.
Proof. unfold coeff. by intros ->. Qed.

Lemma coeff_nonzero (c : R) : default r0 (nonzero c) = c.
Proof. unfold nonzero. by case_decide. Qed.

Lemma coeff_lc_add a b k :
  coeff (lc_add a b) k = radd (coeff a k) (coeff b k).
Proof.
  unfold coeff, lc_add. rewrite lookup_union_with.
  destruct (a !! k) as [y|], (b !! k) as [z|]; simpl.
  - apply coeff_nonzero.
  - ring.
  - ring.
  - ring.
Qed.

Lemma coeff_lc_scale c a k :
  coeff (lc_scale c a) k = rmul c (coeff a k).
Proof.
  unfold coeff, lc_scale. rewrite lookup_omap.
  destruct (a !! k) as [y|]; simpl.
  - apply coeff_nonzero.
  - ring.
Qed.

Lemma coeff_monomial_eq m : coeff (monomial (R:=R) m) m = r1.
Proof. unfold coeff. by rewrite monomial_lookup. Qed.

Lemma rsum_fmap_cons {A} (f : A → R) (z : A) (l : list A) :
  rsum (f <$> z :: l) = radd (f z) (rsum (f <$> l)).
Proof. done. Qed.

Lemma rsum_zero {A} (f : A → R) (l : list A) :
  (∀ z, z ∈ l → f z = r0) → rsum (f <$> l) = r0.
Proof.
  induction l as [|z l IH]; intros Hz; [done|].
  rewrite rsum_fmap_cons, IH, (Hz z); [ring| |]; set_solver.
Qed.

Lemma rsum_single {A} (f : A → R) (l : list A) (z0 : A) :
  NoDup l → z0 ∈ l → (∀ z, z ∈ l → z ≠ z0 → f z = r0) →
  rsum (f <$> l) = f z0.
Proof.
  induction l as [|z l IH]; intros Hnd Hin Hz; [by apply elem_of_nil in Hin|].
  apply NoDup_cons in Hnd as [Hx Hnd]. rewrite rsum_fmap_cons.
  apply elem_of_cons in Hin as [->|Hin].
  - rewrite rsum_zero; [ring|]. intros y Hy. apply Hz; set_solver.
  - rewrite IH, (Hz z); [ring| | | | |]; set_solver.
Qed.

Lemma coeff_linear_combination (l : list (gmap K R * R)) k :
  coeff (linear_combination l) k
  = rsum ((λ pc : gmap K R * R, rmul pc.2 (coeff pc.1 k)) <$> l).
Proof.
  unfold linear_combination.
  assert (∀ acc, coeff (fold_left
      (λ acc (pc : gmap K R * R), lc_add acc (lc_scale pc.2 pc.1)) l acc) k
    = radd (coeff acc k)
        (rsum ((λ pc : gmap K R * R, rmul pc.2 (coeff pc.1 k)) <$> l)))
    as Hgen.
  { induction l as [|[p c] l IH]; intros acc; [simpl; ring|].
    rewrite rsum_fmap_cons. simpl fold_left.
    rewrite IH, coeff_lc_add, coeff_lc_scale. simpl. ring. }
  rewrite Hgen. unfold coeff at 1. rewrite lookup_empty. simpl. ring.
Qed.

Lemma coeff_term m (c : R) k :
  coeff (term m c) k = if decide (m = k) then c else r0.
Proof.
  unfold coeff, term, nonzero. case_decide as Hc.
  - rewrite lookup_empty. simpl. by case_decide.
  - case_decide as Hk.
    + subst. by rewrite lookup_singleton_eq.
    + by rewrite lookup_singleton_ne.
Qed.

Lemma coeff_sum_of_terms (l : list (K * R)) k :
  coeff (sum_of_terms l) k
  = rsum ((λ mc : K * R, if decide (mc.1 = k) then mc.2 else r0) <$> l).
Proof.
  unfold sum_of_terms.
  assert (∀ acc, coeff (fold_left
      (λ acc (mc : K * R), lc_add acc (term mc.1 mc.2)) l acc) k
    = radd (coeff acc k)
        (rsum ((λ mc : K * R, if decide (mc.1 = k) then mc.2 else r0) <$> l)))
    as Hgen.
  { induction l as [|[m c] l IH]; intros acc; [simpl; ring|].
    rewrite rsum_fmap_cons. simpl fold_left.
    rewrite IH, coeff_lc_add, coeff_term. simpl. ring. }
  rewrite Hgen. unfold coeff at 1. rewrite lookup_empty. simpl. ring.
Qed.

(** The results of a product that is returned. *)
Lemma mul_with_Some (f : K → K → option (gmap K R)) a b x :
  mul_with f a b = Some x →
  x = linear_combination
        ((λ t : K * K * R, (default ∅ (f t.1.1 t.1.2), t.2)) <$> term_pairs a b).
Proof.
  unfold mul_with. intros Hx. apply bind_Some in Hx as (rs & Hrs & [= <-]).
  f_equal. apply mapM_Some_1 in Hrs.
  induction Hrs as [|t pc ts rs Ht _ IH]; simpl; [done|].
  apply bind_Some in Ht as (p & Hp & [= <-]). by rewrite Hp, IH.
Qed.

Lemma coeff_mul_with_monomial_l (f : K → K → option (gmap K R)) e b x k :
  mul_with f (monomial e) b = Some x →
  coeff x k
  = rsum ((λ mc : K * R, rmul mc.2 (coeff (default ∅ (f e mc.1)) k))
            <$> map_to_list b).
Proof.
  intros Hx. rewrite (mul_with_Some _ _ _ _ Hx), coeff_linear_combination.
  rewrite term_pairs_monomial_l, <-!list_fmap_compose. done.
Qed.

Lemma coeff_mul_with_monomial_r (f : K → K → option (gmap K R)) a e x k :
  mul_with f a (monomial e) = Some x →
  coeff x k
  = rsum ((λ mc : K * R, rmul mc.2 (coeff (default ∅ (f mc.1 e)) k))
            <$> map_to_list a).
Proof.
  intros Hx. rewrite (mul_with_Some _ _ _ _ Hx), coeff_linear_combination.
  rewrite term_pairs_monomial_r, <-!list_fmap_compose. done.
Qed.

Lemma lc_scale_1 p : zero_free p → lc_scale r1 p = p.
Proof.
  intros Hp. apply map_eq. intros k. unfold lc_scale. rewrite lookup_omap.
  destruct (p !! k) as [c|] eqn:Hc; simpl; [|done].
  rewrite rmul_1_l. apply nonzero_ne. by eapply Hp.
Qed.

Lemma lc_add_empty_l p : lc_add ∅ p = p.
Proof. unfold lc_add. apply (left_id _ _). Qed.

(** The product of two basis elements is the product on the basis. *)
Lemma mul_with_monomials (f : K → K → option (gmap K R)) m1 m2 :
  (∀ p, f m1 m2 = Some p → zero_free p) →
  mul_with f (monomial m1) (monomial m2) = f m1 m2.
Proof.
  intros Hz. unfold mul_with, term_pairs, monomial.
  rewrite !map_to_list_singleton. simpl.
  destruct (f m1 m2) as [p|] eqn:Hp; simpl; [|done].
  unfold linear_combination. simpl.
  by rewrite lc_add_empty_l, rmul_1_l, lc_scale_1 by auto.
Qed.
End CoefficientFacts.

(** ** The product on the basis: stored coefficients and leading term *)

Section PBWFurther.
Context `{Countable G} `{BaseRing R} `{!BaseRingLaws R}.
Variable basis_key : G → Z.
Variable bracket : G → G → option (gmap G R).
Hypothesis nontrivial : (r1 : R) ≠ r0.

Implicit Types lhs rhs a b m : gmultiset G.
Implicit Types r x terms : gmap (gmultiset G) R.

Abbreviation pob := (product_on_basis basis_key bracket).
Abbreviation product := (pbw_product basis_key bracket).
Abbreviation mul := (pbw_mul basis_key bracket).

Add Ring base_ring_ring' : ring_laws.

Ltac by_shape lhs rhs :=
  destruct (shape_total basis_key lhs rhs)
    as [->| Hl -> |t l Hl Hr' Ht Hd Hle |t l Hl Hr' Ht Hd Hlt].

Lemma pob_zero_free n lhs rhs r : pob n lhs rhs = Some r → zero_free r.
Proof.
  destruct n as [|n]; [done|]. intros Hr. by_shape lhs rhs.
  - rewrite pob_one_l in Hr. injection Hr as <-. by apply zero_free_monomial.
  - rewrite pob_one_r in Hr. injection Hr as <-. by apply zero_free_monomial.
  - rewrite (pob_sorted _ _ _ _ _ t l) in Hr by done. injection Hr as <-.
    by apply zero_free_monomial.
  - rewrite (pob_inversion _ _ _ _ _ t l) in Hr by done.
    apply bind_Some in Hr as (terms & _ & Hr).
    apply bind_Some in Hr as (x & _ & Hr).
    by eapply zero_free_mul_with.
Qed.

(** The calls of a product that is returned have returned. *)
Lemma mul_with_calls (f : gmultiset G → gmultiset G →
    option (gmap (gmultiset G) R)) (u v : gmap (gmultiset G) R) x ml mr :
  mul_with f u v = Some x → is_Some (u !! ml) → is_Some (v !! mr) →
  is_Some (f ml mr).
Proof.
  unfold mul_with. intros Hx [cl Hl] [cr Hr].
  apply bind_Some in Hx as (rs & Hrs & _).
  assert (is_Some (mapM (λ t : gmultiset G * gmultiset G * R,
            p ← f t.1.1 t.1.2; Some (p, t.2)) (term_pairs u v))) as Hsome
    by (by rewrite Hrs).
  apply mapM_is_Some_1 in Hsome. rewrite Forall_forall in Hsome.
  specialize (Hsome (ml, mr, rmul cl cr)). simpl in Hsome.
  destruct Hsome as [pc Hpc].
  { apply elem_of_term_pairs. eauto. }
  apply bind_Some in Hpc as (p & Hp & _). eauto.
Qed.

Lemma correction_lookup_top t l terms :
  correction bracket t l = Some terms → terms !! (gen l ⊎ gen t) = Some r1.
Proof.
  unfold correction. intros Hc. apply bind_Some in Hc as (mc & _ & [= <-]).
  unfold lc_add. rewrite lookup_union_with.
  assert (lift_terms mc !! (gen l ⊎ gen t) = None) as ->.
  { destruct (lift_terms mc !! (gen l ⊎ gen t)) as [c|] eqn:Hc; [|done].
    unfold lift_terms in Hc.
    destruct (sum_of_terms_support _ (gen l ⊎ gen t) (mk_is_Some _ _ Hc))
      as [c' Hc'].
    apply list_elem_of_fmap in Hc' as ([g c''] & Hg & _).
    apply (f_equal fst) in Hg.
    change (gen l ⊎ gen t = gen g) in Hg.
    apply (f_equal size) in Hg. rewrite size_gen, size_gen2 in Hg. lia. }
  unfold monoid_mul. by rewrite monomial_lookup.
Qed.

Lemma pob_leading n lhs rhs r :
  pob n lhs rhs = Some r → coeff r (lhs ⊎ rhs) = r1.
Proof.
  revert lhs rhs r. induction n as [|n IH]; intros lhs rhs r Hr; [done|].
  by_shape lhs rhs.
  - rewrite pob_one_l in Hr. injection Hr as <-.
    rewrite (left_id_L ∅ (⊎)). apply coeff_monomial_eq.
  - rewrite pob_one_r in Hr. injection Hr as <-.
    rewrite (right_id_L ∅ (⊎)). apply coeff_monomial_eq.
  - rewrite (pob_sorted _ _ _ _ _ t l) in Hr by done. injection Hr as <-.
    apply coeff_monomial_eq.
  - rewrite (pob_inversion _ _ _ _ _ t l) in Hr by done.
    apply bind_Some in Hr as (terms & Hc & Hr).
    apply bind_Some in Hr as (x & Hx & Hr).
    pose proof (size_lhs basis_key lhs t Ht) as Hsl.
    pose proof (size_rhs basis_key rhs l Hd) as Hsr.
    pose proof (correction_lookup_top _ _ _ Hc) as Htop.
    assert (∀ m', is_Some (x !! m') →
      (size m' ≤ size (lhs ∖ gen t) + 2)%nat
      ∧ (size m' = (size (lhs ∖ gen t) + 2)%nat →
          m' = (lhs ∖ gen t) ⊎ (gen l ⊎ gen t))) as Hxb.
    { intros m' Hm'.
      apply (first_product_bounded bracket lhs t l (pob n) terms x); [|done..].
      intros b p _ Hp. by eapply pob_bounded. }
    (* the first product *)
    assert (coeff x ((lhs ∖ gen t) ⊎ (gen l ⊎ gen t)) = r1) as Hx1.
    { rewrite (coeff_mul_with_monomial_l _ _ _ _ _ Hx).
      rewrite (rsum_single _ _ (gen l ⊎ gen t, r1)).
      - simpl. destruct (mul_with_calls _ _ _ _ (lhs ∖ gen t) (gen l ⊎ gen t) Hx)
          as [p Hp]; [by rewrite monomial_lookup|by rewrite Htop|].
        rewrite Hp. simpl. rewrite (IH _ _ _ Hp). ring.
      - apply NoDup_map_to_list.
      - by apply elem_of_map_to_list.
      - intros [mr c] Hin Hne. apply elem_of_map_to_list in Hin. simpl.
        assert (mr ≠ gen l ⊎ gen t) as Hmr
          by (intros ->; rewrite Htop in Hin; by injection Hin as <-).
        destruct (correction_support bracket t l terms mr Hc) as [[g ->]|?];
          [eauto| |done].
        destruct (pob n (lhs ∖ gen t) (gen g)) as [p|] eqn:Hp; simpl;
          [|rewrite coeff_None by apply lookup_empty; ring].
        rewrite coeff_None; [ring|].
        destruct (p !! (lhs ∖ gen t ⊎ (gen l ⊎ gen t))) as [d|] eqn:Hd';
          [|done].
        destruct (pob_bounded _ _ _ _ _ _ Hp _ (mk_is_Some _ _ Hd')) as [Hle _].
        rewrite !gmultiset_size_disj_union, !size_gen in Hle. lia. }
    apply coeff_lookup in Hx1; [|done].
    (* the second product *)
    assert ((lhs ∖ gen t ⊎ (gen l ⊎ gen t)) ⊎ rhs ∖ gen l = lhs ⊎ rhs) as Heq.
    { rewrite (lhs_split basis_key lhs t Ht) at 2.
      rewrite (rhs_split basis_key rhs l Hd) at 2.
      apply gmultiset_eq. intros z. rewrite !multiplicity_disj_union. lia. }
    rewrite (coeff_mul_with_monomial_r _ _ _ _ _ Hr).
    rewrite (rsum_single _ _ (lhs ∖ gen t ⊎ (gen l ⊎ gen t), r1)).
    + simpl. destruct (mul_with_calls _ _ _ _
        (lhs ∖ gen t ⊎ (gen l ⊎ gen t)) (rhs ∖ gen l) Hr)
        as [p Hp]; [by rewrite Hx1|by rewrite monomial_lookup|].
      rewrite Hp. simpl. rewrite <-Heq, (IH _ _ _ Hp). ring.
    + apply NoDup_map_to_list.
    + by apply elem_of_map_to_list.
    + intros [m' c] Hin Hne. apply elem_of_map_to_list in Hin. simpl.
      assert (m' ≠ lhs ∖ gen t ⊎ (gen l ⊎ gen t)) as Hm'
        by (intros ->; rewrite Hx1 in Hin; by injection Hin as <-).
      destruct (Hxb m') as [Hle Heq']; [eauto|].
      destruct (pob n m' (rhs ∖ gen l)) as [p|] eqn:Hp; simpl;
        [|rewrite coeff_None by apply lookup_empty; ring].
      rewrite coeff_None; [ring|].
      destruct (p !! (lhs ⊎ rhs)) as [d|] eqn:Hd'; [|done].
      destruct (pob_bounded _ _ _ _ _ _ Hp _ (mk_is_Some _ _ Hd')) as [Hle' _].
      rewrite gmultiset_size_disj_union in Hle'.
      assert (size m' ≠ (size (lhs ∖ gen t) + 2)%nat) by auto. lia.
Qed.

(** X1: no zero coefficient is ever stored in a product, over a base ring
    that is not trivial: every coefficient of the element that
    [product_on_basis] returns is not zero. *)
Theorem product_on_basis_zero_free lhs rhs r :
  pbw_product basis_key bracket lhs rhs = Some r →
  ∀ m c, r !! m = Some c → c ≠ r0.
Proof. intros Hr. by eapply pob_zero_free. Qed.

(** X2: the leading term.  The product of two monomials is the monomial
    [lhs * rhs] with coefficient one, plus terms of strictly lower
    degree. *)
Theorem product_on_basis_leading_term lhs rhs r :
  product lhs rhs = Some r →
  r !! monoid_mul lhs rhs = Some r1
  ∧ ∀ m, is_Some (r !! m) → m ≠ monoid_mul lhs rhs →
      (degree_on_basis m < degree_on_basis lhs + degree_on_basis rhs)%nat.
Proof.
  intros Hr. split.
  - apply coeff_lookup; [|done]. by eapply pob_leading.
  - intros m Hm Hne.
    destruct (pbw_product_bounded _ _ _ _ _ Hr m Hm) as [Hle Htop].
    unfold degree_on_basis, length_mon.
    destruct (decide (size m = (size lhs + size rhs)%nat)) as [Heq|]; [|lia].
    by destruct Hne; apply Htop.
Qed.

(** X3: the algebra is filtered.  When the monomials of [u] have degree at
    most [d1] and those of [v] degree at most [d2], the monomials of the
    product [u * v] have degree at most [d1 + d2]. *)
Theorem pbw_mul_filtered (u v x : gmap (gmultiset G) R) (d1 d2 : nat) :
  mul u v = Some x →
  (∀ m, is_Some (u !! m) → (degree_on_basis m ≤ d1)%nat) →
  (∀ m, is_Some (v !! m) → (degree_on_basis m ≤ d2)%nat) →
  ∀ m, is_Some (x !! m) → (degree_on_basis m ≤ d1 + d2)%nat.
Proof.
  intros Hx Hu Hv m Hm.
  destruct (mul_with_support _ _ _ _ _ Hx Hm) as (ml & mr & p & Hl & Hr & Hp & Hpm).
  destruct (pbw_product_bounded _ _ _ _ _ Hp m Hpm) as [Hle _].
  specialize (Hu ml Hl). specialize (Hv mr Hr).
  unfold degree_on_basis, length_mon in *. lia.
Qed.

Lemma term_pairs_empty_r (u : gmap (gmultiset G) R) :
  term_pairs u (∅ : gmap (gmultiset G) R) = [].
Proof.
  unfold term_pairs. rewrite map_to_list_empty.
  induction (map_to_list u) as [|[m c] us IH]; [done|]. exact IH.
Qed.

(** X4: the unit and the zero.  The monomial of [one_basis] is a unit of
    the product on both sides, and the product with the zero element is
    the zero element. *)
Theorem pbw_mul_unit_zero (u : gmap (gmultiset G) R) :
  zero_free u →
  mul (monomial one_basis) u = Some u
  ∧ mul u (monomial one_basis) = Some u
  ∧ mul ∅ u = Some ∅
  ∧ mul u ∅ = Some ∅.
Proof.
  intros Hu. split; [|split; [|split]].
  - apply mul_with_unit_l; [apply pbw_product_one_l|done].
  - apply mul_with_unit_r; [apply pbw_product_one_r|done].
  - unfold pbw_mul, mul_with, term_pairs. by rewrite map_to_list_empty.
  - unfold pbw_mul, mul_with. by rewrite term_pairs_empty_r.
Qed.

(** The product of the monomials of two basis elements. *)
Lemma pbw_mul_monomials a b : mul (monomial a) (monomial b) = product a b.
Proof.
  apply mul_with_monomials. intros p Hp. by eapply pob_zero_free.
Qed.

Lemma product_snoc_generator a y :
  a ≠ ∅ → (∀ z, z ∈ a → basis_key z ≤ basis_key y) →
  mul (monomial a) (algebra_generators y) = Some (monomial (a ⊎ gen y)).
Proof.
  intros Ha Hle. unfold algebra_generators. rewrite pbw_mul_monomials.
  destruct (trailing_support_is_Some basis_key a Ha) as [t Ht].
  apply (pbw_product_sorted _ _ _ _ t y);
    [done|apply gmultiset_non_empty_singleton|done
    |apply leading_support_gen|].
  apply Hle. by apply (trailing_support_max basis_key).
Qed.

Lemma product_of_sorted_from a (w : list G) :
  a ≠ ∅ →
  (∀ z y, z ∈ a → y ∈ w → basis_key z ≤ basis_key y) →
  StronglySorted (λ y z, basis_key y ≤ basis_key z) w →
  foldl (λ acc y, u ← acc; mul u (algebra_generators y))
        (Some (monomial a)) w
  = Some (monomial (a ⊎ list_to_set_disj w)).
Proof.
  revert a. induction w as [|y w IH]; intros a Ha Hle Hs; simpl.
  - by rewrite (right_id_L ∅ (⊎)).
  - apply StronglySorted_inv in Hs as [Hs Hy]. rewrite Forall_forall in Hy.
    rewrite product_snoc_generator; [|done|intros z Hz; apply Hle; set_solver].
    rewrite IH; [|multiset_solver| |done].
    + by rewrite (assoc_L (⊎)).
    + intros z y' Hz Hy'. apply gmultiset_elem_of_disj_union in Hz as [Hz|Hz].
      * apply Hle; set_solver.
      * apply gmultiset_elem_of_singleton in Hz as ->. by apply Hy.
Qed.

(** X5: generators multiplied in nondecreasing order of their keys give
    the monomial of their multiset, with coefficient one, whatever the
    bracket is. *)
Theorem sorted_generators_product (w : list G) :
  Sorted (λ y z, basis_key y ≤ basis_key z) w →
  product_of_generators basis_key bracket w
  = Some (monomial (list_to_set_disj w)).
Proof.
  intros Hs. apply Sorted_StronglySorted in Hs; [|intros ???; lia].
  destruct w as [|y w]; [done|]. simpl.
  apply StronglySorted_inv in Hs as [Hs Hy]. rewrite Forall_forall in Hy.
  unfold algebra_generators at 2. rewrite product_of_sorted_from; [done| | |done].
  - apply gmultiset_non_empty_singleton.
  - intros z y' Hz Hy'. apply gmultiset_elem_of_singleton in Hz as ->.
    by apply Hy.
Qed.

Lemma pob_abelian n lhs rhs :
  (∀ p q, basis_key q < basis_key p → bracket p q = Some ∅) →
  (rank basis_key lhs rhs < n)%nat →
  pob n lhs rhs = Some (monomial (lhs ⊎ rhs)).
Proof.
  intros Hab. revert lhs rhs.
  induction n as [|n IH]; intros lhs rhs Hn; [lia|]. by_shape lhs rhs.
  - by rewrite pob_one_l, (left_id_L ∅ (⊎)).
  - by rewrite pob_one_r, (right_id_L ∅ (⊎)).
  - by rewrite (pob_sorted _ _ _ _ _ t l).
  - rewrite (pob_inversion _ _ _ _ _ t l) by done.
    assert (correction bracket t l = Some (monomial (gen l ⊎ gen t))) as Hc.
    { unfold correction. rewrite Hab by done. simpl.
      unfold lift_terms. rewrite map_to_list_empty. simpl.
      unfold sum_of_terms. simpl. by rewrite lc_add_empty_l. }
    rewrite Hc. simpl.
    rewrite mul_with_monomials by (intros p Hp; by eapply pob_zero_free).
    rewrite IH; last first.
    { pose proof (rank_first basis_key bracket lhs rhs t l Ht Hd Hlt
        _ (gen l ⊎ gen t) Hc) as Hrk.
      rewrite monomial_lookup in Hrk. specialize (Hrk (mk_is_Some _ _ eq_refl)).
      lia. }
    simpl.
    rewrite mul_with_monomials by (intros p Hp; by eapply pob_zero_free).
    rewrite IH; last first.
    { pose proof (rank_second basis_key bracket lhs rhs t l Ht Hd Hlt
        (lhs ∖ gen t ⊎ (gen l ⊎ gen t))) as Hrk.
      rewrite gmultiset_size_disj_union, size_gen2 in Hrk.
      specialize (Hrk (le_n _) (λ _, eq_refl)). lia. }
    f_equal. f_equal.
    rewrite (lhs_split basis_key lhs t Ht) at 2.
    rewrite (rhs_split basis_key rhs l Hd) at 2.
    apply gmultiset_eq. intros z. rewrite !multiplicity_disj_union. lia.
Qed.

(** X6: the abelian case.  When the bracket of every out-of-order pair of
    generators is zero, the product of two monomials is the single
    monomial [lhs * rhs] with coefficient one, so the product on the basis
    is commutative. *)
Theorem abelian_product lhs rhs :
  (∀ p q, basis_key q < basis_key p → bracket p q = Some ∅) →
  product lhs rhs = Some {[ monoid_mul lhs rhs := r1 ]}
  ∧ product lhs rhs = product rhs lhs.
Proof.
  intros Hab.
  assert (∀ a b, product a b = Some (monomial (a ⊎ b))) as Hp
    by (intros a b; apply pob_abelian; [done|lia]).
  split; [apply Hp|]. by rewrite !Hp, (comm_L (⊎) lhs rhs).
Qed.

(** X7: the lift embeds the Lie algebra.  It sends the basis element of
    index [i] to the generator of index [i], its image is made of
    monomials of degree one, and it is injective on the elements of the
    Lie algebra. *)
Theorem lift_embedding (v w : gmap G R) :
  zero_free v → zero_free w →
  (∀ i : G, lift ({[ i := r1 ]} : gmap G R) = algebra_generators i)
  ∧ (∀ m, is_Some (lift v !! m) → degree_on_basis m = 1%nat)
  ∧ (lift v = lift w → v = w).
Proof.
  intros Hv Hw. split; [|split].
  - intros i. rewrite lift_lift_terms, lift_terms_kmap.
    + unfold algebra_generators, monomial. apply (kmap_singleton gen).
    + intros k c Hk. by apply lookup_singleton_Some in Hk as [_ <-].
  - intros m Hm. rewrite lift_lift_terms in Hm. unfold lift_terms in Hm.
    apply sum_of_terms_support in Hm as [c Hc].
    apply list_elem_of_fmap in Hc as ([g c'] & Hg & _).
    apply (f_equal fst) in Hg. simpl in Hg. subst m.
    unfold degree_on_basis, length_mon. apply size_gen.
  - intros Heq.
    pose proof (preimage_lift basis_key v Hv) as H1.
    rewrite Heq, (preimage_lift basis_key w Hw) in H1. by injection H1.
Qed.
End PBWFurther.

(** ** The inversion branch of the product *)

Section InversionClaim.
Context `{Countable G} `{BaseRing R} `{!BaseRingLaws R}.
Variable basis_key : G → Z.
Variable bracket : G → G → option (gmap G R).

Implicit Types lhs rhs : gmultiset G.

(** C1: when neither operand is the identity and the trailing generator
    of [lhs] is strictly above the leading generator of [rhs], the
    product is [lhs] without one [trail], times the correction term
    (the bracket of [trail] and [lead] as single generators, plus the
    ordered monomial [lead * trail]), times [rhs] without one [lead];
    both divisions succeed.  When the bracket is defined on every pair
    of generators the two products of the right-hand side and the
    product itself are returned; and over a base ring with [1 <> 0] the
    product that is returned is not zero: it stores the monomial
    [lhs * rhs] with coefficient one. *)
Theorem product_on_basis_inversion lhs rhs trail lead mc :
  lhs ≠ one_basis → rhs ≠ one_basis →
  trailing_support basis_key lhs = Some trail →
  leading_support basis_key rhs = Some lead →
  basis_key lead < basis_key trail →
  bracket trail lead = Some mc →
  floordiv lhs (gen trail) = Some (lhs ∖ gen trail)
  ∧ floordiv rhs (gen lead) = Some (rhs ∖ gen lead)
  ∧ pbw_product basis_key bracket lhs rhs =
      (x ← pbw_mul basis_key bracket (monomial (lhs ∖ gen trail))
             (lc_add (lift_terms mc)
                     (monomial (monoid_mul (gen lead) (gen trail))));
       pbw_mul basis_key bracket x (monomial (rhs ∖ gen lead)))
  ∧ ((∀ p q, is_Some (bracket p q)) →
     ∃ x r,
       pbw_mul basis_key bracket (monomial (lhs ∖ gen trail))
         (lc_add (lift_terms mc)
                 (monomial (monoid_mul (gen lead) (gen trail)))) = Some x
       ∧ pbw_mul basis_key bracket x (monomial (rhs ∖ gen lead)) = Some r
       ∧ pbw_product basis_key bracket lhs rhs = Some r)
  ∧ ((r1 : R) ≠ r0 →
     ∀ r, pbw_product basis_key bracket lhs rhs = Some r →
          r !! monoid_mul lhs rhs = Some r1 ∧ r ≠ ∅).
Proof.
  intros Hl Hr Ht Hd Hlt Hmc.
  assert (pbw_product basis_key bracket lhs rhs =
      (x ← pbw_mul basis_key bracket (monomial (lhs ∖ gen trail))
             (lc_add (lift_terms mc)
                     (monomial (monoid_mul (gen lead) (gen trail))));
       pbw_mul basis_key bracket x (monomial (rhs ∖ gen lead)))) as Heq.
  { rewrite (pbw_product_inversion _ _ _ _ trail lead) by done.
    unfold correction. by rewrite Hmc. }
  split; [|split; [|split; [|split]]].
  - apply floordiv_gen. by apply (trailing_support_max basis_key).
  - apply floordiv_gen. by apply (leading_support_min basis_key).
  - exact Heq.
  - intros Hbr.
    destruct (pbw_product_total basis_key bracket lhs rhs Hbr) as [r Hr'].
    pose proof Hr' as Hr''. rewrite Heq in Hr''.
    apply bind_Some in Hr'' as (x & Hx & Hxr). by exists x, r.
  - intros Hnt r Hr'.
    assert (r !! monoid_mul lhs rhs = Some r1) as Htop.
    { apply coeff_lookup; [|done]. by eapply pob_leading. }
    split; [done|]. intros ->. by rewrite lookup_empty in Htop.
Qed.
End InversionClaim.

(** ** The bracket oracle is asked about out-of-order pairs only *)

Section BracketAgreement.
Context `{Countable G} `{BaseRing R}.
Variable basis_key : G → Z.
Variables bracket1 bracket2 : G → G → option (gmap G R).
Hypothesis agree :
  ∀ p q, basis_key q < basis_key p → bracket1 p q = bracket2 p q.

Implicit Types lhs rhs : gmultiset G.

Lemma pob_bracket_agree n lhs rhs :
  product_on_basis basis_key bracket1 n lhs rhs
  = product_on_basis basis_key bracket2 n lhs rhs.
Proof.
  revert lhs rhs. induction n as [|n IH]; intros lhs rhs; [done|].
  destruct (shape_total basis_key lhs rhs)
    as [->| Hl -> |t l Hl Hr' Ht Hd Hle |t l Hl Hr' Ht Hd Hlt].
  - by rewrite !pob_one_l.
  - by rewrite !pob_one_r.
  - by rewrite !(pob_sorted _ _ _ _ _ t l).
  - rewrite !(pob_inversion _ _ _ _ _ t l) by done.
    unfold correction. rewrite agree by done.
    destruct (bracket2 t l) as [mc|]; simpl; [|done].
    rewrite (mul_with_ext _ (product_on_basis basis_key bracket2 n))
      by (intros; apply IH).
    destruct (mul_with _ _ _) as [x|]; simpl; [|done].
    apply mul_with_ext. intros. apply IH.
Qed.

End BracketAgreement.

(** X8: the bracket oracle is asked about out-of-order pairs only.  Two
    oracles that agree on every pair [(p, q)] with [q] below [p], the
    first of which is defined on these pairs, give the same product, and
    the product is returned, whatever they do on the other pairs. *)
Theorem bracket_only_on_inversions `{Countable G} `{BaseRing R}
    (basis_key : G → Z) (bracket1 bracket2 : G → G → option (gmap G R))
    (lhs rhs : gmultiset G) :
  (∀ p q, basis_key q < basis_key p → bracket1 p q = bracket2 p q) →
  (∀ p q, basis_key q < basis_key p → is_Some (bracket1 p q)) →
  ∃ r, pbw_product basis_key bracket1 lhs rhs = Some r
     ∧ pbw_product basis_key bracket2 lhs rhs = Some r.
Proof.
  intros Hagree Hdef.
  set (total := λ p q, if decide (basis_key q < basis_key p)
                       then bracket1 p q else Some ∅).
  assert (∀ p q, basis_key q < basis_key p → bracket1 p q = total p q)
    as Htotal by (intros p q Hpq; unfold total; by rewrite decide_True).
  assert (is_Some (pbw_product basis_key total lhs rhs)) as [r Hr].
  { apply pbw_product_total. intros p q. unfold total.
    case_decide; [by apply Hdef|eauto]. }
  exists r. unfold pbw_product in *.
  rewrite <-(pob_bracket_agree basis_key bracket1 bracket2 Hagree).
  by rewrite (pob_bracket_agree basis_key bracket1 total Htotal).
Qed.

(** ** The comparison key of a monomial *)

Section MonomialKey.
Context `{Countable G}.
Variable basis_key : G → Z.

Implicit Types a b m : gmultiset G.

Lemma to_word_list_elements m : to_word_list basis_key m ≡ₚ elements m.
Proof.
  unfold to_word_list, _sorted_items, elements, gmultiset_elements.
  destruct m as [X]. simpl. by rewrite merge_sort_Permutation.
Qed.

Lemma list_to_set_disj_elements m : list_to_set_disj (elements m) = m.
Proof.
  induction m as [|x m IH] using gmultiset_ind; [done|].
  rewrite gmultiset_elements_disj_union, gmultiset_elements_singleton.
  rewrite list_to_set_disj_app, IH, list_to_set_disj_cons, list_to_set_disj_nil.
  by rewrite (right_id_L ∅ (⊎)).
Qed.

Lemma to_word_list_sorted m :
  StronglySorted (λ x y, basis_key x ≤ basis_key y) (to_word_list basis_key m).
Proof.
  unfold to_word_list.
  pose proof (sorted_items_sorted basis_key m) as Hs.
  induction Hs as [|[x e] items Hs IH Hx]; simpl; [constructor|].
  apply StronglySorted_app_2; [| |done].
  - intros y z Hy Hz. apply elem_of_replicate_inv in Hy as ->.
    apply list_elem_of_bind in Hz as ([x' e'] & Hz & Hin).
    apply elem_of_replicate_inv in Hz as ->.
    rewrite Forall_forall in Hx. apply (Hx _ Hin).
  - induction (Pos.to_nat e) as [|n IHn]; simpl; constructor; [done|].
    apply Forall_forall. intros y Hy. by apply elem_of_replicate_inv in Hy as ->.
Qed.

(** X9: the comparison key of a monomial.  Its first component is the
    negated degree, so a monomial of higher degree comes first; its second
    component lists the keys of the letters of the monomial in
    nondecreasing order, one per unit of degree; and when the basis key
    is injective, monomials with the same key are equal. *)
Theorem monomial_key_order a b :
  (_monomial_key basis_key a).1 = - Z.of_nat (degree_on_basis a)
  ∧ length (_monomial_key basis_key a).2 = degree_on_basis a
  ∧ StronglySorted Z.le (_monomial_key basis_key a).2
  ∧ ((degree_on_basis b < degree_on_basis a)%nat →
     monomial_key_lt (_monomial_key basis_key a) (_monomial_key basis_key b))
  ∧ (Inj (=) (=) basis_key →
     _monomial_key basis_key a = _monomial_key basis_key b → a = b).
Proof.
  unfold _monomial_key, degree_on_basis, length_mon. simpl.
  split; [done|]. split; [|split; [|split]].
  - rewrite length_fmap, to_word_list_elements. done.
  - apply (StronglySorted_fmap _ (λ x y, basis_key x ≤ basis_key y));
      [done|apply to_word_list_sorted].
  - intros Hlt. left. simpl. lia.
  - intros Hinj [= _ Hw]. apply (inj (fmap basis_key)) in Hw.
    rewrite <-(list_to_set_disj_elements a), <-(list_to_set_disj_elements b).
    by rewrite <-!to_word_list_elements, Hw.
Qed.
End MonomialKey.

(** ** Coercions between group algebras *)

Section InducedMapFacts.
Context `{Countable K1} `{Countable K2} {R1 : Type}.
Context `{BaseRing R2} `{!BaseRingLaws R2}.
Variable hom_G : K1 → K2.
Variable hom_K : R1 → R2.

(** X10: the function of the coercion between two group algebras maps an
    element term by term.  Its image stores no zero coefficient and only
    images of keys of the element, and the coefficient of a key in the
    image is the sum of the images of the coefficients of the keys sent
    to it; when the coercion of the keys is injective and no coefficient
    is sent to zero, the coefficient of the image of a key is the image
    of its coefficient. *)
Theorem induced_map_terms (x : gmap K1 R1) :
  zero_free (induced_map hom_G hom_K x)
  ∧ (∀ k, is_Some (induced_map hom_G hom_K x !! k) →
          ∃ g, k = hom_G g ∧ is_Some (x !! g))
  ∧ (∀ k, coeff (induced_map hom_G hom_K x) k
          = rsum ((λ gc : K1 * R1,
                     if decide (hom_G gc.1 = k) then hom_K gc.2 else r0)
                  <$> map_to_list x))
  ∧ (Inj (=) (=) hom_G →
     (∀ g c, x !! g = Some c → hom_K c ≠ r0) →
     ∀ g, induced_map hom_G hom_K x !! hom_G g = hom_K <$> x !! g).
Proof.
  unfold induced_map. split; [|split; [|split]].
  - apply zero_free_sum_of_terms.
  - intros k Hk. apply sum_of_terms_support in Hk as [d Hd].
    apply list_elem_of_fmap in Hd as ([g c] & [= -> ->] & Hin).
    apply elem_of_map_to_list in Hin. eauto.
  - intros k. by rewrite coeff_sum_of_terms, <-list_fmap_compose.
  - intros Hinj Hnz g. rewrite sum_of_terms_list_to_map.
    + apply option_eq. intros d.
      rewrite <-elem_of_list_to_map, list_elem_of_fmap, fmap_Some.
      * split.
        -- intros ([g' c] & [= Hg ->] & Hin). apply (inj hom_G) in Hg as <-.
           apply elem_of_map_to_list in Hin. eauto.
        -- intros (c & Hc & ->). exists (g, c). split; [done|].
           by apply elem_of_map_to_list.
      * rewrite <-list_fmap_compose.
        rewrite (list_fmap_ext _ (hom_G ∘ fst) (map_to_list x))
          by (by intros ? [??]).
        rewrite list_fmap_compose. apply (NoDup_fmap_2 _).
        apply NoDup_fst_map_to_list.
    + rewrite <-list_fmap_compose.
      rewrite (list_fmap_ext _ (hom_G ∘ fst) (map_to_list x))
        by (by intros ? [??]).
      rewrite list_fmap_compose. apply (NoDup_fmap_2 _).
      apply NoDup_fst_map_to_list.
    + intros k d Hin.
      apply list_elem_of_fmap in Hin as ([g' c] & [= -> ->] & Hin).
      apply elem_of_map_to_list in Hin. by eapply Hnz.
Qed.
End InducedMapFacts.

(** ** Products have no preimage in the Lie algebra *)

Section ProductPreimage.
Context `{Countable G} `{BaseRing R} `{!BaseRingLaws R}.
Variable basis_key : G → Z.
Variable bracket : G → G → option (gmap G R).

(** X12: over a base ring that is not trivial, the product of two
    monomials other than the identity is never the image of an element of
    the Lie algebra: taking its preimage reports an error. *)
Theorem product_not_in_image (lhs rhs : gmultiset G)
    (r : gmap (gmultiset G) R) :
  (r1 : R) ≠ r0 →
  lhs ≠ one_basis → rhs ≠ one_basis →
  pbw_product basis_key bracket lhs rhs = Some r →
  preimage basis_key r = None.
Proof.
  intros Hnt Hl Hr Hp. apply preimage_None. exists (lhs ⊎ rhs). split.
  - assert (r !! (lhs ⊎ rhs) = Some r1) as ->; [|done].
    apply coeff_lookup; [|done]. by eapply pob_leading.
  - unfold degree_on_basis, length_mon. rewrite gmultiset_size_disj_union.
    assert (size lhs ≠ 0%nat) by (by intros ?%gmultiset_size_empty_inv).
    assert (size rhs ≠ 0%nat) by (by intros ?%gmultiset_size_empty_inv).
    lia.
Qed.
End ProductPreimage.

(** ** The further properties at concrete inputs *)

Section FurtherWitnesses.
Import Sl2.

Lemma nontrivial_Z : (r1 : Z) ≠ r0.
Proof. simpl. lia. Qed.

(** [(F * H) * (E * H)], through the inversion branch: [H] is moved past
    [E] with [H * E = E * H + 2 * E], and the remainders are [F] and [H]. *)
Lemma product_on_basis_inversion_witness :
  floordiv (gen F ⊎ gen H) (gen H) = Some ((gen F ⊎ gen H) ∖ gen H)
  ∧ floordiv (gen E ⊎ gen H) (gen E) = Some ((gen E ⊎ gen H) ∖ gen E)
  ∧ pbw_product key bracket (gen F ⊎ gen H) (gen E ⊎ gen H) =
      (x ← pbw_mul key bracket (monomial ((gen F ⊎ gen H) ∖ gen H))
             (lc_add (lift_terms {[ E := 2 ]})
                     (monomial (monoid_mul (gen E) (gen H))));
       pbw_mul key bracket x (monomial ((gen E ⊎ gen H) ∖ gen E)))
  ∧ (∃ x r,
       pbw_mul key bracket (monomial ((gen F ⊎ gen H) ∖ gen H))
         (lc_add (lift_terms {[ E := 2 ]})
                 (monomial (monoid_mul (gen E) (gen H)))) = Some x
       ∧ pbw_mul key bracket x (monomial ((gen E ⊎ gen H) ∖ gen E)) = Some r
       ∧ pbw_product key bracket (gen F ⊎ gen H) (gen E ⊎ gen H) = Some r)
  ∧ (∀ r, pbw_product key bracket (gen F ⊎ gen H) (gen E ⊎ gen H) = Some r →
          r !! monoid_mul (gen F ⊎ gen H) (gen E ⊎ gen H) = Some 1 ∧ r ≠ ∅)
  ∧ (gen F ⊎ gen H) ∖ gen H = gen F
  ∧ (gen E ⊎ gen H) ∖ gen E = gen H
  ∧ pbw_mul key bracket (monomial (gen F))
      (lc_add (lift_terms {[ E := 2 ]})
              (monomial (monoid_mul (gen E) (gen H))))
    = Some {[ gen E ⊎ gen F ⊎ gen H := 1; gen E ⊎ gen F := 2;
              gen H ⊎ gen H := -1; gen H := -2 ]}
  ∧ pbw_product key bracket (gen F ⊎ gen H) (gen E ⊎ gen H)
    = Some {[ gen E ⊎ gen F ⊎ gen H ⊎ gen H := 1;
              gen E ⊎ gen F ⊎ gen H := 2;
              gen H ⊎ gen H ⊎ gen H := -1;
              gen H ⊎ gen H := -2 ]}.
Proof.
  destruct (product_on_basis_inversion key bracket
              (gen F ⊎ gen H) (gen E ⊎ gen H) H E {[ E := 2 ]})
    as (P1 & P2 & P3 & P4 & P5).
  - compute_done.
  - compute_done.
  - vm_compute. reflexivity.
  - vm_compute. reflexivity.
  - simpl. lia.
  - reflexivity.
  - split; [exact P1|]. split; [exact P2|]. split; [exact P3|].
    split; [apply P4; intros p q; unfold bracket; eauto|].
    split; [apply P5, nontrivial_Z|].
    repeat split; compute_done.
Defined.

Lemma product_on_basis_zero_free_witness :
  pbw_product key bracket (gen F) (gen E)
    = Some {[ gen E ⊎ gen F := 1; gen H := -1 ]}
  ∧ ∀ m c, ({[ gen E ⊎ gen F := 1; gen H := -1 ]}
              : gmap (gmultiset gen3) Z) !! m = Some c → c ≠ r0.
Proof.
  split; [compute_done|].
  apply (product_on_basis_zero_free key bracket nontrivial_Z (gen F) (gen E)).
  compute_done.
Defined.

Lemma product_on_basis_leading_term_witness :
  ({[ gen E ⊎ gen F := 1; gen H := -1 ]} : gmap (gmultiset gen3) Z)
    !! monoid_mul (gen F) (gen E) = Some r1
  ∧ ∀ m, is_Some (({[ gen E ⊎ gen F := 1; gen H := -1 ]}
                     : gmap (gmultiset gen3) Z) !! m) →
      m ≠ monoid_mul (gen F) (gen E) →
      (degree_on_basis m < degree_on_basis (gen F) + degree_on_basis (gen E))%nat.
Proof.
  apply (product_on_basis_leading_term key bracket nontrivial_Z).
  compute_done.
Defined.

Lemma pbw_mul_filtered_witness :
  pbw_mul key bracket (monomial (gen F)) (monomial (gen E))
    = Some {[ gen E ⊎ gen F := 1; gen H := -1 ]}
  ∧ ∀ m, is_Some (({[ gen E ⊎ gen F := 1; gen H := -1 ]}
                     : gmap (gmultiset gen3) Z) !! m) →
         (degree_on_basis m ≤ 1 + 1)%nat.
Proof.
  split; [compute_done|].
  apply (pbw_mul_filtered key bracket (monomial (gen F)) (monomial (gen E))).
  - compute_done.
  - intros m Hm. apply monomial_support in Hm as ->. vm_compute. lia.
  - intros m Hm. apply monomial_support in Hm as ->. vm_compute. lia.
Defined.

Lemma pbw_mul_unit_zero_witness :
  pbw_mul key bracket (monomial one_basis) (monomial (gen E))
    = Some (monomial (gen E))
  ∧ pbw_mul key bracket (monomial (gen E)) (monomial one_basis)
    = Some (monomial (gen E))
  ∧ pbw_mul key bracket ∅ (monomial (gen E)) = Some ∅
  ∧ pbw_mul key bracket (monomial (gen E)) ∅ = Some ∅.
Proof.
  apply (pbw_mul_unit_zero key bracket (monomial (gen E))).
  apply zero_free_monomial, nontrivial_Z.
Defined.

Lemma sorted_generators_product_witness :
  product_of_generators key bracket [E; E; F; H]
  = Some (monomial (list_to_set_disj [E; E; F; H])).
Proof.
  apply (sorted_generators_product key bracket nontrivial_Z).
  repeat constructor; simpl; lia.
Defined.

Lemma abelian_product_witness :
  pbw_product key Oracles.abelian_bracket (gen H) (gen E)
    = Some {[ monoid_mul (gen H) (gen E) := r1 ]}
  ∧ pbw_product key Oracles.abelian_bracket (gen H) (gen E)
    = pbw_product key Oracles.abelian_bracket (gen E) (gen H).
Proof.
  apply (abelian_product key Oracles.abelian_bracket nontrivial_Z).
  reflexivity.
Defined.

Lemma lift_embedding_witness :
  (∀ i : gen3, lift ({[ i := r1 ]} : gmap gen3 Z) = algebra_generators i)
  ∧ (∀ m, is_Some (lift ({[ E := 1 ]} : gmap gen3 Z) !! m) →
          degree_on_basis m = 1%nat)
  ∧ (lift ({[ E := 1 ]} : gmap gen3 Z) = lift ({[ F := 2 ]} : gmap gen3 Z) →
     ({[ E := 1 ]} : gmap gen3 Z) = {[ F := 2 ]}).
Proof.
  apply (lift_embedding key nontrivial_Z).
  - intros k c Hk. by apply lookup_singleton_Some in Hk as [_ <-].
  - intros k c Hk. by apply lookup_singleton_Some in Hk as [_ <-].
Defined.

Lemma bracket_only_on_inversions_witness :
  ∃ r, pbw_product key bracket (gen H ⊎ gen H) (gen F) = Some r
     ∧ pbw_product key Oracles.partial_bracket (gen H ⊎ gen H) (gen F) = Some r.
Proof.
  apply (bracket_only_on_inversions key bracket Oracles.partial_bracket).
  - intros p q Hpq. unfold Oracles.partial_bracket. by rewrite decide_True.
  - intros p q _. unfold bracket. eauto.
Defined.

Lemma key_inj : Inj (=) (=) key.
Proof. intros [] []; simpl; intros; first [done|lia]. Qed.

Lemma monomial_key_order_witness :
  (_monomial_key key (gen E ⊎ gen H)).1
    = - Z.of_nat (degree_on_basis (gen E ⊎ gen H))
  ∧ length (_monomial_key key (gen E ⊎ gen H)).2
    = degree_on_basis (gen E ⊎ gen H)
  ∧ StronglySorted Z.le (_monomial_key key (gen E ⊎ gen H)).2
  ∧ monomial_key_lt (_monomial_key key (gen E ⊎ gen H))
                    (_monomial_key key (gen F))
  ∧ (_monomial_key key (gen E ⊎ gen H) = _monomial_key key (gen F) →
     gen E ⊎ gen H = gen F).
Proof.
  destruct (monomial_key_order key (gen E ⊎ gen H) (gen F))
    as (H1 & H2 & H3 & H4 & H5).
  split; [exact H1|]. split; [exact H2|]. split; [exact H3|].
  split; [apply H4; vm_compute; lia|exact (H5 key_inj)].
Defined.

(** An injective coercion of the keys, and a coercion of the keys that
    merges two terms whose coefficients cancel. *)
Lemma induced_map_terms_witness :
  (∀ g, induced_map Z.succ Z.opp ({[ 1 := 2 ]} : gmap Z Z) !! Z.succ g
        = Z.opp <$> ({[ 1 := 2 ]} : gmap Z Z) !! g)
  ∧ zero_free (induced_map (λ _ : Z, 0) Z.opp
                 ({[ 1 := 2; 2 := -2 ]} : gmap Z Z))
  ∧ coeff (induced_map (λ _ : Z, 0) Z.opp
             ({[ 1 := 2; 2 := -2 ]} : gmap Z Z)) 0
    = rsum ((λ gc : Z * Z, if decide (0 = 0) then Z.opp gc.2 else r0)
            <$> map_to_list ({[ 1 := 2; 2 := -2 ]} : gmap Z Z))
  ∧ induced_map (λ _ : Z, 0) Z.opp ({[ 1 := 2; 2 := -2 ]} : gmap Z Z) = ∅.
Proof.
  split; [|split; [|split]].
  - apply (induced_map_terms Z.succ Z.opp).
    + intros x y Hxy. lia.
    + intros g c Hg. apply lookup_singleton_Some in Hg as [_ <-]. simpl. lia.
  - apply (induced_map_terms (λ _ : Z, 0) Z.opp).
  - apply (induced_map_terms (λ _ : Z, 0) Z.opp
             ({[ 1 := 2; 2 := -2 ]} : gmap Z Z)).
  - compute_done.
Defined.

Lemma product_not_in_image_witness :
  preimage key ({[ gen E ⊎ gen F := 1; gen H := -1 ]}
                  : gmap (gmultiset gen3) Z) = None.
Proof.
  apply (product_not_in_image key bracket (gen F) (gen E)).
  - exact nontrivial_Z.
  - compute_done.
  - compute_done.
  - compute_done.
Defined.
End FurtherWitnesses.
